(** * jsonsql: Value[T] and Nullable[T]

    A shallow embedding of the two column wrappers of package [jsonsql]
    ([Value[T]] for NOT NULL JSON columns, [Nullable[T]] for NULL-able
    ones) together with the part of the Go standard library that decides
    what they treat as the JSON literal [null]: [bytes.TrimSpace] and,
    underneath it, [unicode/utf8] and [unicode.IsSpace].

    Go [int] and [rune] values are integers of [Z]; no operation below
    comes near their bounds except the mask computation of
    [utf8.DecodeRune], whose 32-bit wrap-around is written out.  A byte
    slice is a [list byte]; a [nil] slice and an empty one are both [[]]
    (the code never tells them apart: it only takes [len] and compares with
    [bytes.Equal]). *)

From Stdlib Require Import String Ascii Init.Byte Strings.Byte.
From Stdlib Require Import ZArith List Bool Lia.
From Equations Require Import Equations.
Import ListNotations.
Local Open Scope Z_scope.

(** ** Go slices of bytes *)

(** [uint8 b] is the numeric value of the byte [b]. *)
Definition uint8 (b : byte) : Z := Z.of_N (Byte.to_N b).

(** [len s] *)
Definition len (s : list byte) : Z := Z.of_nat (length s).

(** [s[i]], as a number.  Go panics when [i] is out of range; every use
    below is guarded by a bounds test, so the default is never read. *)
Definition index (s : list byte) (i : Z) : Z := uint8 (nth (Z.to_nat i) s x00).

(** [s[lo:hi]] *)
Definition slice (s : list byte) (lo hi : Z) : list byte :=
  firstn (Z.to_nat (hi - lo)) (skipn (Z.to_nat lo) s).

(** [int32(z)]: the value a Go [int32] holds after an operation whose exact
    result is [z]. *)
Definition int32 (z : Z) : Z := (z + 2 ^ 31) mod 2 ^ 32 - 2 ^ 31.

(** ** unicode/utf8

    The three modules that follow render functions of the Go standard
    library after their source ([unicode/utf8/utf8.go], [unicode/graphic.go],
    [unicode/letter.go], [unicode/tables.go], [bytes/bytes.go]), statement
    by statement; loops are functions by well-founded recursion on the
    distance their counter has left to go. *)

Module utf8.

Definition rune := Z.

Definition RuneError : rune := 0xFFFD.
Definition RuneSelf : Z := 0x80.
Definition UTFMax : Z := 4.

Definition maskx : Z := 0x3F.
Definition mask2 : Z := 0x1F.
Definition mask3 : Z := 0x0F.
Definition mask4 : Z := 0x07.

Definition locb : Z := 0x80.
Definition hicb : Z := 0xBF.

(** Entries of the table [first]: the low three bits are the length of the
    sequence, the high four bits index [acceptRanges]. *)
Definition xx : Z := 0xF1.
Definition as_ : Z := 0xF0.
Definition s1 : Z := 0x02.
Definition s2 : Z := 0x13.
Definition s3 : Z := 0x03.
Definition s4 : Z := 0x23.
Definition s5 : Z := 0x34.
Definition s6 : Z := 0x04.
Definition s7 : Z := 0x44.

(** [first[b]]: information about the first byte of a sequence.  The
    256-entry array, by the ranges of its rows. *)
Definition first (b : Z) : Z :=
  if b <? 0x80 then as_        (* 0x00-0x7F *)
  else if b <? 0xC2 then xx    (* 0x80-0xC1 *)
  else if b <? 0xE0 then s1    (* 0xC2-0xDF *)
  else if b =? 0xE0 then s2
  else if b <? 0xED then s3    (* 0xE1-0xEC *)
  else if b =? 0xED then s4
  else if b <? 0xF0 then s3    (* 0xEE-0xEF *)
  else if b =? 0xF0 then s5
  else if b <? 0xF4 then s6    (* 0xF1-0xF3 *)
  else if b =? 0xF4 then s7
  else xx.                     (* 0xF5-0xFF *)

Record acceptRange : Type := { lo : Z; hi : Z }.

(** [acceptRanges[i]]: the range the second byte must lie in. *)
Definition acceptRanges (i : Z) : acceptRange :=
  if i =? 0 then {| lo := locb; hi := hicb |}
  else if i =? 1 then {| lo := 0xA0; hi := hicb |}
  else if i =? 2 then {| lo := locb; hi := 0x9F |}
  else if i =? 3 then {| lo := 0x90; hi := hicb |}
  else if i =? 4 then {| lo := locb; hi := 0x8F |}
  else {| lo := 0; hi := 0 |}.

(** [DecodeRune(p)]: the first rune of [p] and its width in bytes;
    [(RuneError, 1)] for a malformed sequence, [(RuneError, 0)] for an
    empty [p]. *)
Definition DecodeRune (p : list byte) : rune * Z :=
  let n := len p in
  if n <? 1 then (RuneError, 0) else
  let p0 := index p 0 in
  let x := first p0 in
  if as_ <=? x then
    (* mask := rune(x) << 31 >> 31: all zeros for [as_], all ones for [xx] *)
    let mask := Z.shiftr (int32 (Z.shiftl x 31)) 31 in
    (Z.lor (Z.land p0 (Z.lnot mask)) (Z.land RuneError mask), 1)
  else
  let sz := Z.land x 7 in
  let accept := acceptRanges (Z.shiftr x 4) in
  if n <? sz then (RuneError, 1) else
  let b1 := index p 1 in
  if (b1 <? lo accept) || (hi accept <? b1) then (RuneError, 1) else
  if sz <=? 2 then
    (Z.lor (Z.shiftl (Z.land p0 mask2) 6) (Z.land b1 maskx), 2)
  else
  let b2 := index p 2 in
  if (b2 <? locb) || (hicb <? b2) then (RuneError, 1) else
  if sz <=? 3 then
    (Z.lor (Z.lor (Z.shiftl (Z.land p0 mask3) 12)
                  (Z.shiftl (Z.land b1 maskx) 6))
           (Z.land b2 maskx), 3)
  else
  let b3 := index p 3 in
  if (b3 <? locb) || (hicb <? b3) then (RuneError, 1) else
  (Z.lor (Z.lor (Z.lor (Z.shiftl (Z.land p0 mask4) 18)
                       (Z.shiftl (Z.land b1 maskx) 12))
                (Z.shiftl (Z.land b2 maskx) 6))
         (Z.land b3 maskx), 4).

(** [RuneStart(b)]: [b] is not a continuation byte. *)
Definition RuneStart (b : Z) : bool := negb (Z.land b 0xC0 =? 0x80).

(** The loop of [DecodeLastRune],
    [for start--; start >= lim; start-- { if RuneStart(p[start]) { break } }],
    entered after its [start--]: the value of [start] it ends with. *)
Equations? DecodeLastRune_loop (p : list byte) (lim start : Z) : Z
  by wf (Z.to_nat (start + 1 - lim)) lt :=
  DecodeLastRune_loop p lim start with Z_lt_dec start lim => {
    | left _ => start
    | right _ =>
        if RuneStart (index p start) then start
        else DecodeLastRune_loop p lim (start - 1) }.
Proof. lia. Qed.

(** [DecodeLastRune(p)]: the last rune of [p] and its width. *)
Definition DecodeLastRune (p : list byte) : rune * Z :=
  let end_ := len p in
  if end_ =? 0 then (RuneError, 0) else
  let start := end_ - 1 in
  let r := index p start in
  if r <? RuneSelf then (r, 1) else
  let lim := end_ - UTFMax in
  let lim := if lim <? 0 then 0 else lim in
  let start := DecodeLastRune_loop p lim (start - 1) in
  let start := if start <? 0 then 0 else start in
  let (r, size) := DecodeRune (slice p start end_) in
  if negb (start + size =? end_) then (RuneError, 1) else (r, size).

End utf8.

(** ** unicode *)

Module unicode.

Definition MaxLatin1 : Z := 0xFF.

Record Range16 : Type := { Lo : Z; Hi : Z; Stride : Z }.

(** [White_Space.R16]; the table has no 32-bit ranges, and its first
    [LatinOffset] rows lie in Latin-1. *)
Definition White_Space_R16 : list Range16 :=
  [ {| Lo := 0x0009; Hi := 0x000d; Stride := 1 |};
    {| Lo := 0x0020; Hi := 0x0020; Stride := 1 |};
    {| Lo := 0x0085; Hi := 0x0085; Stride := 1 |};
    {| Lo := 0x00a0; Hi := 0x00a0; Stride := 1 |};
    {| Lo := 0x1680; Hi := 0x1680; Stride := 1 |};
    {| Lo := 0x2000; Hi := 0x200a; Stride := 1 |};
    {| Lo := 0x2028; Hi := 0x2029; Stride := 1 |};
    {| Lo := 0x202f; Hi := 0x202f; Stride := 1 |};
    {| Lo := 0x205f; Hi := 0x205f; Stride := 1 |};
    {| Lo := 0x3000; Hi := 0x3000; Stride := 1 |} ].

Definition White_Space_LatinOffset : nat := 4.

(** [is16(ranges, r)], the linear search taken for short tables. *)
Fixpoint is16 (ranges : list Range16) (r : Z) : bool :=
  match ranges with
  | [] => false
  | range_ :: rest =>
      if r <? Lo range_ then false
      else if r <=? Hi range_ then
        (Stride range_ =? 1) || ((r - Lo range_) mod Stride range_ =? 0)
      else is16 rest r
  end.

(** [isExcludingLatin(White_Space, r)] *)
Definition isExcludingLatin_White_Space (r : utf8.rune) : bool :=
  let r16 := White_Space_R16 in
  let off := White_Space_LatinOffset in
  if (Nat.ltb off (length r16)) && (r <=? Hi (last r16 {| Lo := 0; Hi := 0; Stride := 0 |}))
  then is16 (skipn off r16) (r mod 2 ^ 16)
  else false.

(** [IsSpace(r)] *)
Definition IsSpace (r : utf8.rune) : bool :=
  if r mod 2 ^ 32 <=? MaxLatin1 then
    (r =? 0x09) || (r =? 0x0A) || (r =? 0x0B) || (r =? 0x0C) || (r =? 0x0D)
    || (r =? 0x20) || (r =? 0x85) || (r =? 0xA0)
  else isExcludingLatin_White_Space r.

End unicode.

(** Both decoders consume at least one byte of a non-empty slice; the
    loops of package [bytes] below terminate because of it. *)

Lemma DecodeRune_width (p : list byte) :
  p <> [] -> 1 <= snd (utf8.DecodeRune p) <= 4.
Proof.
  intros Hp. unfold utf8.DecodeRune.
  destruct p as [|b p]; [congruence|].
  replace (len (b :: p) <? 1) with false
    by (symmetry; apply Z.ltb_ge; unfold len; cbn [length]; lia).
  repeat match goal with
         | |- context [if ?c then _ else _] => destruct c
         end; cbn [snd]; lia.
Qed.

Lemma DecodeLastRune_loop_le (p : list byte) (lim start : Z) :
  utf8.DecodeLastRune_loop p lim start <= start.
Proof.
  funelim (utf8.DecodeLastRune_loop p lim start); [lia|].
  destruct (utf8.RuneStart (index p start)); [lia|].
  match goal with IH : _ <= _ |- _ => revert IH end. lia.
Qed.

Lemma DecodeLastRune_width (p : list byte) :
  p <> [] -> 1 <= snd (utf8.DecodeLastRune p).
Proof.
  intros Hp. unfold utf8.DecodeLastRune.
  assert (Hlen : 1 <= len p)
    by (destruct p; [congruence | unfold len; cbn [length]; lia]).
  destruct (len p =? 0) eqn:E0; [apply Z.eqb_eq in E0; lia|].
  destruct (index p (len p - 1) <? utf8.RuneSelf); [cbn; lia|].
  set (lim := if len p - utf8.UTFMax <? 0 then 0 else len p - utf8.UTFMax).
  pose proof (DecodeLastRune_loop_le p lim (len p - 1 - 1)) as Hle.
  set (st := utf8.DecodeLastRune_loop p lim (len p - 1 - 1)) in *.
  destruct (utf8.DecodeRune _) as [r size].
  destruct (negb _) eqn:E; [cbn; lia|].
  apply negb_false_iff, Z.eqb_eq in E. cbn [snd].
  destruct (st <? 0) eqn:E1; [|apply Z.ltb_ge in E1]; lia.
Qed.

(** ** bytes *)

Module bytes.

(** [Equal(a, b)] *)
Fixpoint Equal (a b : list byte) : bool :=
  match a, b with
  | [], [] => true
  | x :: a', y :: b' => Byte.eqb x y && Equal a' b'
  | _, _ => false
  end.

(** [asciiSpace[c]] *)
Definition asciiSpace (c : Z) : Z :=
  if (c =? 0x09) || (c =? 0x0A) || (c =? 0x0B) || (c =? 0x0C) || (c =? 0x0D)
     || (c =? 0x20)
  then 1 else 0.

(** The rune that [indexFunc] reads at [start], and its width:
    [wid := 1; r := rune(s[start]);
     if r >= utf8.RuneSelf { r, wid = utf8.DecodeRune(s[start:]) }]. *)
Definition rune_at (s : list byte) (start : Z) : utf8.rune * Z :=
  let r := index s start in
  if utf8.RuneSelf <=? r then utf8.DecodeRune (slice s start (len s))
  else (r, 1).

(** The rune that [lastIndexFunc] reads before [i], and its width:
    [r, size := rune(s[i-1]), 1;
     if r >= utf8.RuneSelf { r, size = utf8.DecodeLastRune(s[0:i]) }]. *)
Definition rune_before (s : list byte) (i : Z) : utf8.rune * Z :=
  let r := index s (i - 1) in
  if utf8.RuneSelf <=? r then utf8.DecodeLastRune (slice s 0 i)
  else (r, 1).

(** The loop of [indexFunc(s, f, truth)], from [start]. *)
Equations? indexFunc_loop (s : list byte) (f : utf8.rune -> bool)
    (truth : bool) (start : Z) : Z
  by wf (Z.to_nat (len s - start)) lt :=
  indexFunc_loop s f truth start with Z_lt_dec start (len s) => {
    | right _ => -1
    | left _ =>
        if Bool.eqb (f (fst (rune_at s start))) truth then start
        else indexFunc_loop s f truth (start + snd (rune_at s start)) }.
Proof.
  enough (1 <= snd (rune_at s start)) by lia.
  unfold rune_at.
  destruct (utf8.RuneSelf <=? index s start) eqn:E; [|cbn; lia].
  apply DecodeRune_width.
  destruct s as [|b s]; [unfold index in E; destruct (Z.to_nat start); cbn in E; discriminate|].
  intros Hnil. apply (f_equal (@length byte)) in Hnil. unfold slice in Hnil.
  rewrite length_firstn, length_skipn in Hnil.
  unfold len in *. cbn [length] in *. lia.
Qed.

Definition indexFunc (s : list byte) (f : utf8.rune -> bool) (truth : bool) : Z :=
  indexFunc_loop s f truth 0.

(** The loop of [lastIndexFunc(s, f, truth)], from [i]. *)
Equations? lastIndexFunc_loop (s : list byte) (f : utf8.rune -> bool)
    (truth : bool) (i : Z) : Z
  by wf (Z.to_nat i) lt :=
  lastIndexFunc_loop s f truth i with Z_gt_dec i 0 => {
    | right _ => -1
    | left _ =>
        if Bool.eqb (f (fst (rune_before s i))) truth
        then i - snd (rune_before s i)
        else lastIndexFunc_loop s f truth (i - snd (rune_before s i)) }.
Proof.
  enough (1 <= snd (rune_before s i)) by lia.
  unfold rune_before.
  destruct (utf8.RuneSelf <=? index s (i - 1)) eqn:E; [|cbn; lia].
  apply DecodeLastRune_width.
  destruct s as [|b s]; [unfold index in E; destruct (Z.to_nat (i - 1)); cbn in E; discriminate|].
  intros Hnil. apply (f_equal (@length byte)) in Hnil. unfold slice in Hnil.
  rewrite length_firstn, length_skipn in Hnil.
  cbn [length] in *. lia.
Qed.

Definition lastIndexFunc (s : list byte) (f : utf8.rune -> bool) (truth : bool) : Z :=
  lastIndexFunc_loop s f truth (len s).

(** [TrimLeftFunc(s, f)] *)
Definition TrimLeftFunc (s : list byte) (f : utf8.rune -> bool) : list byte :=
  let i := indexFunc s f false in
  if i =? -1 then [] else slice s i (len s).

(** [TrimRightFunc(s, f)] *)
Definition TrimRightFunc (s : list byte) (f : utf8.rune -> bool) : list byte :=
  let i := lastIndexFunc s f false in
  let i :=
    if (0 <=? i) && (utf8.RuneSelf <=? index s i)
    then i + snd (utf8.DecodeRune (slice s i (len s)))
    else i + 1 in
  slice s 0 i.

(** [TrimFunc(s, f)] *)
Definition TrimFunc (s : list byte) (f : utf8.rune -> bool) : list byte :=
  TrimRightFunc (TrimLeftFunc s f) f.

(** How a loop of [TrimSpace] ends: by returning from the function, or by
    leaving the loop with its counter. *)
Inductive loop_exit : Type :=
| Return (result : list byte)
| Done (i : Z).

(** The first loop of [TrimSpace]: over the leading ASCII bytes. *)
Equations? TrimSpace_start (s : list byte) (start : Z) : loop_exit
  by wf (Z.to_nat (len s - start)) lt :=
  TrimSpace_start s start with Z_lt_dec start (len s) => {
    | right _ => Done start
    | left _ =>
        let c := index s start in
        if utf8.RuneSelf <=? c
        then Return (TrimFunc (slice s start (len s)) unicode.IsSpace)
        else if asciiSpace c =? 0 then Done start
        else TrimSpace_start s (start + 1) }.
Proof. lia. Qed.

(** The second loop of [TrimSpace]: over the trailing ASCII bytes. *)
Equations? TrimSpace_stop (s : list byte) (start stop : Z) : loop_exit
  by wf (Z.to_nat (stop - start)) lt :=
  TrimSpace_stop s start stop with Z_gt_dec stop start => {
    | right _ => Done stop
    | left _ =>
        let c := index s (stop - 1) in
        if utf8.RuneSelf <=? c
        then Return (TrimFunc (slice s start stop) unicode.IsSpace)
        else if asciiSpace c =? 0 then Done stop
        else TrimSpace_stop s start (stop - 1) }.
Proof. lia. Qed.

(** [TrimSpace(s)]: [s] without its leading and trailing white space, as
    defined by Unicode. *)
Definition TrimSpace (s : list byte) : list byte :=
  match TrimSpace_start s 0 with
  | Return result => result
  | Done start =>
      match TrimSpace_stop s start (len s) with
      | Return result => result
      | Done stop => if start =? stop then [] else slice s start stop
      end
  end.

End bytes.

(** ** Package jsonsql *)

(** A value of interface type [any] (what [database/sql] hands to [Scan],
    and what [Value] hands back as a [driver.Value]), by its dynamic type:
    the three types the wrappers' type switch knows, the [nil] interface,
    and every other type, of which only the name that [%T] prints is kept.
    A nil slice held in the interface is not the [nil] interface: it is
    [bytes_ []] or [RawMessage []]. *)
Inductive any : Type :=
| nil_
| bytes_ (s : list byte)
| string_ (s : string)
| RawMessage (s : list byte)
| other (type_name : string).

(** A Go [error] that the wrappers return, over the errors [E] of the JSON
    codec; the [nil] error is [None] of [option (error E)]. *)
Inductive error (E : Type) : Type :=
| ErrNullNotAllowed
    (* errors.New("jsonsql: null value not allowed for NOT NULL field") *)
| unsupported_type (method : string) (type_name : string)
    (* fmt.Errorf("<method>: unsupported type %T", src) *)
| wrapped (method : string) (err : E).
    (* fmt.Errorf("<method>: %w", err) *)
Arguments ErrNullNotAllowed {E}.
Arguments unsupported_type {E} method type_name.
Arguments wrapped {E} method err.

(** [[]byte("null")] *)
Definition null_literal : list byte := list_byte_of_string "null".

(** The wrappers delegate to [encoding/json], which is not part of the
    package.  [json.Marshal] and [json.Unmarshal] at the payload type are
    parameters of the model, and every call made to them is logged, so that
    "the codec is not consulted" can be stated: a computation yields its
    result together with the calls it made, in order. *)
Inductive codec_call (T : Type) : Type :=
| Marshal_call (v : T)
| Unmarshal_call (data : list byte) (v : T).
Arguments Marshal_call {T} v.
Arguments Unmarshal_call {T} data v.

Definition logged (T A : Type) : Type := A * list (codec_call T).

Definition ret {T A : Type} (a : A) : logged T A := (a, []).

Definition bind {T A B : Type} (m : logged T A) (k : A -> logged T B) : logged T B :=
  let (a, l1) := m in
  let (b, l2) := k a in
  (b, l1 ++ l2).

Notation "' pat <- m ;; k" := (bind m (fun x => let 'pat := x in k))
  (at level 61, pat pattern, m at next level, right associativity).

(** *** value.go *)

Module Value.
Section Value.
Context {T E : Type}.
(** [json.Marshal(v)]: the encoding and the error. *)
Variable json_Marshal : T -> list byte * option E.
(** [json.Unmarshal(data, &v)]: what [v] holds afterwards, and the error. *)
Variable json_Unmarshal : list byte -> T -> T * option E.

(** [type Value[T any] struct { V T }] *)
Record t : Type := { V : T }.

Definition NewValue (v : T) : t := {| V := v |}.

Definition Get (v : t) : T := V v.

(** [func (v *Value[T]) Scan(src any) error]: the box after the call and
    the error. *)
Definition Scan (v : t) (src : any) : logged T (t * option (error E)) :=
  (* the statements after the type switch *)
  let decode (data : list byte) : logged T (t * option (error E)) :=
    if bytes.Equal (bytes.TrimSpace data) null_literal
    then ret (v, Some ErrNullNotAllowed)
    else
      '(V', err) <- (json_Unmarshal data (V v), [Unmarshal_call data (V v)]) ;;
      match err with
      | Some err => ret ({| V := V' |}, Some (wrapped "jsonsql.Value.Scan" err))
      | None => ret ({| V := V' |}, None)
      end in
  match src with
  | nil_ => ret (v, Some ErrNullNotAllowed)
  | bytes_ s => decode s
  | string_ s => decode (list_byte_of_string s)
  | RawMessage s => decode s
  | other type_name =>
      ret (v, Some (unsupported_type "jsonsql.Value.Scan" type_name))
  end.

(** [func (v Value[T]) Value() (driver.Value, error)] *)
Definition Value (v : t) : logged T (any * option (error E)) :=
  '(data, err) <- (json_Marshal (V v), [Marshal_call (V v)]) ;;
  match err with
  | Some err => ret (nil_, Some (wrapped "jsonsql.Value.Value" err))
  | None => ret (bytes_ data, None)
  end.
End Value.
Arguments t T : clear implicits.
End Value.

(** *** nullable.go *)

Module Nullable.
Section Nullable.
Context {T E : Type}.
(** The zero value of [T]: [var zero T]. *)
Variable zero : T.
Variable json_Marshal : T -> list byte * option E.
Variable json_Unmarshal : list byte -> T -> T * option E.

(** [type Nullable[T any] struct { V T; Valid bool }] *)
Record t : Type := { V : T; Valid : bool }.

Definition NullableFrom (v : T) : t := {| V := v; Valid := true |}.

Definition Null : t := {| V := zero; Valid := false |}.

Definition NewNullable (v : T) (valid : bool) : t :=
  if negb valid then Null else NullableFrom v.

(** [ptr *T] is [None] for the nil pointer, [Some x] for a pointer to [x]. *)
Definition NullableFromPtr (ptr : option T) : t :=
  match ptr with
  | None => Null
  | Some x => NullableFrom x
  end.

(** [func (n Nullable[T]) ToPtr() *T]: the pointer, as [NullableFromPtr]
    takes one: [None] for nil, [Some x] for a pointer to [x].  The method
    has a value receiver, so the pointer is to the [V] of its own copy of
    the box. *)
Definition ToPtr (n : t) : option T :=
  if negb (Valid n) then None else Some (V n).

Definition Get (n : t) : T * bool := (V n, Valid n).

(** [func (n *Nullable[T]) Scan(src any) error] *)
Definition Scan (n : t) (src : any) : logged T (t * option (error E)) :=
  (* n.Valid = false; var zero T; n.V = zero; return nil *)
  let set_null : logged T (t * option (error E)) :=
    ret ({| V := zero; Valid := false |}, None) in
  (* the statements after the type switch *)
  let decode (data : list byte) : logged T (t * option (error E)) :=
    if bytes.Equal (bytes.TrimSpace data) null_literal
    then set_null
    else
      '(V', err) <- (json_Unmarshal data (V n), [Unmarshal_call data (V n)]) ;;
      match err with
      | Some err =>
          ret ({| V := V'; Valid := Valid n |},
               Some (wrapped "jsonsql.Nullable.Scan" err))
      | None => ret ({| V := V'; Valid := true |}, None)
      end in
  match src with
  | nil_ => set_null
  | bytes_ s => if len s =? 0 then set_null else decode s
  | string_ s =>
      if Z.of_nat (String.length s) =? 0 then set_null
      else decode (list_byte_of_string s)
  | RawMessage s => if len s =? 0 then set_null else decode s
  | other type_name =>
      ret (n, Some (unsupported_type "jsonsql.Nullable.Scan" type_name))
  end.

(** [func (n Nullable[T]) Value() (driver.Value, error)] *)
Definition Value (n : t) : logged T (any * option (error E)) :=
  if negb (Valid n) then ret (nil_, None)
  else
    '(data, err) <- (json_Marshal (V n), [Marshal_call (V n)]) ;;
    match err with
    | Some err => ret (nil_, Some (wrapped "jsonsql.Nullable.Value" err))
    | None => ret (bytes_ data, None)
    end.
End Nullable.
Arguments t T : clear implicits.
End Nullable.

(** ** encoding/json at the payload types of the examples *)

Module json.

(** The errors of the codec: [*json.UnsupportedTypeError] from [Marshal];
    from [Unmarshal] a [*json.SyntaxError] or a [*json.UnmarshalTypeError],
    which are not told apart here. *)
Inductive error_ : Type :=
| UnsupportedTypeError
| DecodeError.

(** [isSpace(c)] of the JSON scanner: space, tab, carriage return, newline. *)
Definition isSpace (c : byte) : bool :=
  Byte.eqb c x20 || Byte.eqb c x09 || Byte.eqb c x0d || Byte.eqb c x0a.

Fixpoint skip_space (data : list byte) : list byte :=
  match data with
  | c :: rest => if isSpace c then skip_space rest else data
  | [] => []
  end.

(** The JSON text without the white space the scanner allows around it. *)
Definition text (data : list byte) : list byte :=
  rev (skip_space (rev (skip_space data))).

(** [json.Marshal(v)] for [v bool]. *)
Definition Marshal_bool (v : bool) : list byte * option error_ :=
  (list_byte_of_string (if v then "true" else "false"), None).

(** [json.Unmarshal(data, &v)] for [v bool]: the literals [true] and [false]
    are stored, [null] has no effect and is no error, and anything else
    (any other JSON value, or no JSON at all) is an error that leaves [v]
    as it was. *)
Definition Unmarshal_bool (data : list byte) (v : bool) : bool * option error_ :=
  if bytes.Equal (text data) (list_byte_of_string "true") then (true, None)
  else if bytes.Equal (text data) (list_byte_of_string "false") then (false, None)
  else if bytes.Equal (text data) (list_byte_of_string "null") then (v, None)
  else (v, Some DecodeError).

(** [json.Marshal(v)] for [v *bool]: a nil pointer is encoded as [null], any
    other as what it points to. *)
Definition Marshal_ptr_bool (v : option bool) : list byte * option error_ :=
  match v with
  | None => (list_byte_of_string "null", None)
  | Some b => Marshal_bool b
  end.

(** [type unmarshalableType struct { Ch chan int }] of the tests; of the
    channel only whether it is nil, and which one it is, is kept. *)
Record unmarshalableType : Type := { Ch : option nat }.

(** [json.Marshal(v)] for [v unmarshalableType]: a channel cannot be
    encoded. *)
Definition Marshal_unmarshalableType (v : unmarshalableType)
  : list byte * option error_ :=
  ([], Some UnsupportedTypeError).

End json.

(** ** Properties *)

(** The bytes a source carries, for the three types of the type switch. *)
Definition content (src : any) : option (list byte) :=
  match src with
  | bytes_ s => Some s
  | string_ s => Some (list_byte_of_string s)
  | RawMessage s => Some s
  | nil_ | other _ => None
  end.

Lemma Equal_true_iff (a b : list byte) : bytes.Equal a b = true <-> a = b.
Proof.
  revert b. induction a as [|x a IH]; intros [|y b]; cbn;
    try (split; congruence).
  rewrite andb_true_iff, IH. split.
  - intros [Hxy ->]. apply Byte.byte_dec_bl in Hxy. congruence.
  - intros [= -> ->]. split; [apply Byte.byte_dec_lb|]; reflexivity.
Qed.

Lemma Equal_false_iff (a b : list byte) : bytes.Equal a b = false <-> a <> b.
Proof.
  rewrite <- Equal_true_iff. destruct (bytes.Equal a b); split; congruence.
Qed.

Lemma length_list_byte_of_string (s : string) :
  length (list_byte_of_string s) = String.length s.
Proof.
  unfold list_byte_of_string. rewrite length_map.
  induction s as [|c s IH]; cbn; congruence.
Qed.

Lemma TrimSpace_nil : bytes.TrimSpace [] = [].
Proof. reflexivity. Qed.

(** ** What [bytes.TrimSpace] trims *)

(** The code points with the Unicode property White_Space. *)
Definition White_Space : list Z :=
  [ 0x09; 0x0A; 0x0B; 0x0C; 0x0D; 0x20; 0x85; 0xA0; 0x1680;
    0x2000; 0x2001; 0x2002; 0x2003; 0x2004; 0x2005; 0x2006; 0x2007; 0x2008;
    0x2009; 0x200A; 0x2028; 0x2029; 0x202F; 0x205F; 0x3000 ].

(** The byte of value [z]. *)
Definition byte_of (z : Z) : byte :=
  match Byte.of_N (Z.to_N z) with
  | Some b => b
  | None => x00
  end.

(** The UTF-8 encoding of a code point below 0x10000. *)
Definition utf8_encode (c : Z) : list byte :=
  if c <? 0x80 then [byte_of c]
  else if c <? 0x800 then
    [byte_of (Z.lor 0xC0 (Z.shiftr c 6)); byte_of (Z.lor 0x80 (Z.land c 0x3F))]
  else
    [byte_of (Z.lor 0xE0 (Z.shiftr c 12));
     byte_of (Z.lor 0x80 (Z.land (Z.shiftr c 6) 0x3F));
     byte_of (Z.lor 0x80 (Z.land c 0x3F))].

(** A run of white space: the UTF-8 encoding of a sequence of White_Space
    code points. *)
Definition white_space_run (l : list byte) : Prop :=
  exists cs, Forall (fun c => In c White_Space) cs /\ l = flat_map utf8_encode cs.

(** [null] with white space that [bytes.TrimSpace] trims around it. *)
Definition padded_null (data : list byte) : Prop :=
  exists l r, white_space_run l /\ white_space_run r /\
              data = l ++ null_literal ++ r.

(** The white space of JSON: space, tab, newline, carriage return. *)
Definition json_space (c : byte) : Prop :=
  c = x20 \/ c = x09 \/ c = x0a \/ c = x0d.

(** [null] with JSON white space around it. *)
Definition json_padded_null (data : list byte) : Prop :=
  exists l r, Forall json_space l /\ Forall json_space r /\
              data = l ++ null_literal ++ r.

(** *** All bytes *)

Definition all_bytes : list byte :=
  Eval vm_compute in
    flat_map (fun n => match Byte.of_N (N.of_nat n) with
                       | Some b => [b]
                       | None => []
                       end) (seq 0 256).

Lemma in_all_bytes (b : byte) : In b all_bytes.
Proof.
  assert (H : existsb (Byte.eqb b) all_bytes = true)
    by (destruct b; vm_compute; reflexivity).
  apply existsb_exists in H. destruct H as (x & Hin & Hx).
  apply Byte.byte_dec_bl in Hx. congruence.
Qed.

Lemma forall_byte (P : byte -> bool) :
  forallb P all_bytes = true -> forall b, P b = true.
Proof. intros H b. rewrite forallb_forall in H. apply H, in_all_bytes. Qed.

(** *** What [utf8.DecodeRune] takes for white space *)

Lemma uint8_range (b : byte) : 0 <= uint8 b < 256.
Proof. unfold uint8. pose proof (Byte.to_N_bounded b). lia. Qed.

Lemma lor_bounds (x y : Z) : 0 <= x -> 0 <= y -> x <= Z.lor x y <= x + y.
Proof.
  intros Hx Hy.
  pose proof (Z.add_lor_land x y) as Hadd.
  pose proof (Z.sub_lor_l_same_l y x) as Hsub.
  assert (0 <= Z.land x y) by (apply Z.land_nonneg; auto).
  assert (0 <= Z.land y (Z.lnot x)) by (apply Z.land_nonneg; auto).
  lia.
Qed.

Lemma land_mask_bounds (x m : Z) : 0 <= x -> 0 <= m -> 0 <= Z.land x m <= m.
Proof.
  intros Hx Hm.
  pose proof (Z.add_lor_land x m) as Hadd.
  pose proof (Z.sub_lor_l_same_l m x) as Hsub.
  assert (0 <= Z.land x m) by (apply Z.land_nonneg; auto).
  assert (0 <= Z.land m (Z.lnot x)) by (apply Z.land_nonneg; auto).
  lia.
Qed.

Lemma IsSpace_le (r : Z) :
  unicode.IsSpace r = true -> 0 <= r < 2 ^ 32 -> r <= 0x3000.
Proof.
  intros H Hr. unfold unicode.IsSpace in H.
  rewrite Z.mod_small in H by exact Hr.
  destruct (r <=? unicode.MaxLatin1) eqn:E.
  - apply Z.leb_le in E. unfold unicode.MaxLatin1 in E. lia.
  - unfold unicode.isExcludingLatin_White_Space in H.
    change (unicode.Hi (last unicode.White_Space_R16 _)) with 0x3000 in H.
    destruct (r <=? 0x3000) eqn:E2; [apply Z.leb_le in E2; lia|].
    rewrite andb_false_r in H. discriminate H.
Qed.

(** A rune that [unicode.IsSpace] accepts, decoded from the bytes [t], is a
    White_Space code point and [t] is its encoding. *)
Definition accepts (r : Z) (t : list byte) : bool :=
  if unicode.IsSpace r
  then existsb (Z.eqb r) White_Space && bytes.Equal t (utf8_encode r)
  else true.

Lemma accepts_spec (r : Z) (t : list byte) :
  accepts r t = true -> unicode.IsSpace r = true ->
  In r White_Space /\ t = utf8_encode r.
Proof.
  unfold accepts. intros H Hs. rewrite Hs in H. apply andb_prop in H. destruct H as [Hin Ht].
  apply existsb_exists in Hin. destruct Hin as (c & Hin & Hc).
  apply Z.eqb_eq in Hc. subst c. apply Equal_true_iff in Ht. auto.
Qed.

(** The decision tree of [utf8.DecodeRune] on the first bytes [a], [b], [c]
    of a slice, the later ones ranging over all bytes: a sequence of one,
    two or three bytes that decodes to white space is accepted, and a
    sequence of four decodes to a rune from 0x10000 on. *)
Definition space_check (a : byte) : bool :=
  let p0 := uint8 a in
  let x := utf8.first p0 in
  if utf8.as_ <=? x then
    let mask := Z.shiftr (int32 (Z.shiftl x 31)) 31 in
    accepts (Z.lor (Z.land p0 (Z.lnot mask)) (Z.land utf8.RuneError mask)) [a]
  else
  let sz := Z.land x 7 in
  let accept := utf8.acceptRanges (Z.shiftr x 4) in
  (2 <=? sz) && (sz <=? 4) &&
  forallb (fun b =>
    let b1 := uint8 b in
    if (b1 <? utf8.lo accept) || (utf8.hi accept <? b1) then true else
    if sz <=? 2 then
      accepts (Z.lor (Z.shiftl (Z.land p0 utf8.mask2) 6) (Z.land b1 utf8.maskx))
              [a; b]
    else if sz <=? 3 then
    forallb (fun c =>
      let b2 := uint8 c in
      if (b2 <? utf8.locb) || (utf8.hicb <? b2) then true else
        accepts (Z.lor (Z.lor (Z.shiftl (Z.land p0 utf8.mask3) 12)
                              (Z.shiftl (Z.land b1 utf8.maskx) 6))
                       (Z.land b2 utf8.maskx))
                [a; b; c]) all_bytes
    else
      0x10000 <=? Z.lor (Z.shiftl (Z.land p0 utf8.mask4) 18)
                        (Z.shiftl (Z.land b1 utf8.maskx) 12)) all_bytes.

Lemma space_check_ok (a : byte) : space_check a = true.
Proof. apply forall_byte. vm_compute. reflexivity. Qed.

Lemma len_cons (a : byte) (p : list byte) : len (a :: p) = 1 + len p.
Proof. unfold len. cbn [length]. lia. Qed.

Lemma len_nonneg (p : list byte) : 0 <= len p.
Proof. unfold len. lia. Qed.

Ltac first_if H E :=
  match type of H with
  | context [if ?c then _ else _] => destruct c eqn:E
  end.

(** Where [utf8.DecodeRune] yields a rune that [unicode.IsSpace] accepts,
    the rune is a White_Space code point, the slice starts with its
    encoding, and the width is that of the encoding. *)
Lemma DecodeRune_space (p : list byte) (r w : Z) :
  utf8.DecodeRune p = (r, w) ->
  unicode.IsSpace r = true ->
  In r White_Space /\
  exists rest, p = utf8_encode r ++ rest /\ w = len (utf8_encode r).
Proof.
  intros H Hs.
  assert (Herr : unicode.IsSpace utf8.RuneError = false) by reflexivity.
  unfold utf8.DecodeRune in H. cbv zeta in H.
  destruct p as [|a p]; [cbn in H; apply pair_equal_spec in H; destruct H as [Hr Hw]; subst r w; congruence|].
  replace (len (a :: p) <? 1) with false in H
    by (symmetry; apply Z.ltb_ge; rewrite len_cons; pose proof (len_nonneg p); lia).
  change (index (a :: p) 0) with (uint8 a) in H.
  pose proof (space_check_ok a) as C. unfold space_check in C. cbv zeta in C.
  destruct (utf8.as_ <=? utf8.first (uint8 a)) eqn:E1.
  { apply pair_equal_spec in H; destruct H as [Hr Hw]; subst r w.
    apply accepts_spec in C; [|exact Hs]. destruct C as [Hin Ht].
    split; [exact Hin|]. exists p. rewrite <- Ht. split; reflexivity. }
  apply andb_prop in C. destruct C as [Csz C].
  apply andb_prop in Csz. destruct Csz as [Csz2 Csz4].
  apply Z.leb_le in Csz2, Csz4.
  first_if H E2; [apply pair_equal_spec in H; destruct H as [Hr Hw]; subst r w; congruence|]. apply Z.ltb_ge in E2.
  destruct p as [|b p]; [unfold len in E2; cbn [length] in E2; lia|].
  change (index (a :: b :: p) 1) with (uint8 b) in H.
  rewrite forallb_forall in C. specialize (C b (in_all_bytes b)).
  cbv beta zeta in C.
  first_if H E3; [apply pair_equal_spec in H; destruct H as [Hr Hw]; subst r w; congruence|].
  first_if H E4.
  { apply pair_equal_spec in H; destruct H as [Hr Hw]; subst r w.
    apply accepts_spec in C; [|exact Hs]. destruct C as [Hin Ht].
    split; [exact Hin|]. exists p. rewrite <- Ht. split; reflexivity. }
  apply Z.leb_gt in E4.
  destruct p as [|c p]; [unfold len in E2; cbn [length] in E2; lia|].
  change (index (a :: b :: c :: p) 2) with (uint8 c) in H.
  first_if H E5; [apply pair_equal_spec in H; destruct H as [Hr Hw]; subst r w; congruence|].
  first_if H E6.
  { rewrite forallb_forall in C. specialize (C c (in_all_bytes c)).
    cbv beta zeta in C. rewrite E5 in C.
    apply pair_equal_spec in H; destruct H as [Hr Hw]; subst r w.
    apply accepts_spec in C; [|exact Hs]. destruct C as [Hin Ht].
    split; [exact Hin|]. exists p. rewrite <- Ht. split; reflexivity. }
  first_if H E7; [apply pair_equal_spec in H; destruct H as [Hr Hw]; subst r w; congruence|].
  apply pair_equal_spec in H; destruct H as [Hr Hw]; subst r w. exfalso.
  apply Z.leb_le in C.
  pose proof (uint8_range a). pose proof (uint8_range b).
  pose proof (uint8_range c).
  set (b3 := index (a :: b :: c :: p) 3) in *.
  assert (Hb3 : 0 <= b3 < 256) by (apply uint8_range).
  pose proof (land_mask_bounds (uint8 a) utf8.mask4).
  pose proof (land_mask_bounds (uint8 b) utf8.maskx).
  pose proof (land_mask_bounds (uint8 c) utf8.maskx).
  pose proof (land_mask_bounds b3 utf8.maskx).
  unfold utf8.mask4, utf8.maskx in *.
  rewrite !Z.shiftl_mul_pow2 in * by lia.
  set (A := Z.land (uint8 a) 7 * 2 ^ 18) in *.
  set (B := Z.land (uint8 b) 63 * 2 ^ 12) in *.
  set (C' := Z.land (uint8 c) 63 * 2 ^ 6) in *.
  set (D := Z.land b3 63) in *.
  assert (0 <= A <= 7 * 2 ^ 18) by (unfold A; lia).
  assert (0 <= B <= 63 * 2 ^ 12) by (unfold B; lia).
  assert (0 <= C' <= 63 * 2 ^ 6) by (unfold C'; lia).
  assert (0 <= D <= 63) by (unfold D; lia).
  pose proof (lor_bounds A B).
  pose proof (lor_bounds (Z.lor A B) C').
  pose proof (lor_bounds (Z.lor (Z.lor A B) C') D).
  apply IsSpace_le in Hs; lia.
Qed.

(** *** Slices of an append *)

Lemma len_app (a b : list byte) : len (a ++ b) = len a + len b.
Proof. unfold len. rewrite length_app. lia. Qed.

Lemma index_head (a : byte) (p : list byte) : index (a :: p) 0 = uint8 a.
Proof. reflexivity. Qed.

Lemma index_app_l (a b : list byte) (i : Z) :
  0 <= i < len a -> index (a ++ b) i = index a i.
Proof.
  intros H. unfold index, len in *. rewrite app_nth1 by lia. reflexivity.
Qed.

Lemma index_app_r (a b : list byte) (i : Z) :
  0 <= i -> index (a ++ b) (len a + i) = index b i.
Proof.
  intros H. unfold index, len. rewrite app_nth2 by lia.
  f_equal. f_equal. lia.
Qed.

Lemma slice_app_r (a b : list byte) (i j : Z) :
  0 <= i -> slice (a ++ b) (len a + i) (len a + j) = slice b i j.
Proof.
  intros H. unfold slice, len.
  replace (Z.to_nat (Z.of_nat (length a) + i))
    with (length a + Z.to_nat i)%nat by lia.
  rewrite skipn_app, skipn_all2 by lia.
  replace (length a + Z.to_nat i - length a)%nat with (Z.to_nat i) by lia.
  cbn [app]. f_equal. lia.
Qed.

Lemma slice_app_l (a b : list byte) (i j : Z) :
  0 <= i -> j <= len a -> slice (a ++ b) i j = slice a i j.
Proof.
  intros Hi Hj. unfold slice, len in *.
  rewrite skipn_app, firstn_app, length_skipn.
  replace (Z.to_nat (j - i) - (length a - Z.to_nat i))%nat with 0%nat by lia.
  rewrite firstn_O, app_nil_r. reflexivity.
Qed.

Lemma slice_all (s : list byte) : slice s 0 (len s) = s.
Proof.
  unfold slice, len. cbn [Z.to_nat skipn].
  rewrite Z.sub_0_r, Nat2Z.id. apply firstn_all.
Qed.

Lemma slice_suffix (a b : list byte) : slice (a ++ b) (len a) (len (a ++ b)) = b.
Proof.
  rewrite len_app.
  rewrite <- (Z.add_0_r (len a)) at 1.
  rewrite slice_app_r by lia. apply slice_all.
Qed.

Lemma slice_prefix (a b : list byte) : slice (a ++ b) 0 (len a) = a.
Proof. rewrite slice_app_l by lia. apply slice_all. Qed.

Lemma slice_empty (s : list byte) (i : Z) : slice s i i = [].
Proof. unfold slice. rewrite Z.sub_diag. reflexivity. Qed.

(** *** The encodings of white space decode to white space *)

Lemma White_Space_IsSpace (c : Z) : In c White_Space -> unicode.IsSpace c = true.
Proof.
  intros H. apply (proj1 (Forall_forall (fun c => unicode.IsSpace c = true) White_Space));
    [|exact H].
  repeat constructor.
Qed.

(** An encoding of white space has one to three bytes, the first of which
    starts a rune. *)
Lemma utf8_encode_shape (c : Z) :
  In c White_Space ->
  exists a t, utf8_encode c = a :: t /\ 1 <= len (utf8_encode c) <= 3 /\
              utf8.RuneStart (uint8 a) = true /\
              ((c <? utf8.RuneSelf) = true ->
               utf8_encode c = [a] /\ uint8 a = c) /\
              ((c <? utf8.RuneSelf) = false ->
               utf8.RuneSelf <= uint8 a /\
               utf8.RuneSelf <= uint8 (last (utf8_encode c) x00)).
Proof.
  intros H. cbn [White_Space In] in H.
  repeat (destruct H as [<- | H]; [eexists; eexists; split; [reflexivity|];
    vm_compute; repeat split; intros; congruence|]).
  contradiction.
Qed.

(** [utf8.DecodeRune] of a slice that starts with the encoding of a
    White_Space code point yields the code point and the width of the
    encoding. *)
Lemma DecodeRune_token (c : Z) (rest : list byte) :
  In c White_Space ->
  utf8.DecodeRune (utf8_encode c ++ rest) = (c, len (utf8_encode c)).
Proof.
  intros H. pose proof (len_nonneg rest) as Hrest.
  cbn [White_Space In] in H.
  repeat (destruct H as [<- | H]; [
    match goal with
    | |- utf8.DecodeRune (?t ++ _) = _ =>
        let t' := eval vm_compute in t in change t with t'
    end;
    cbn [app]; unfold utf8.DecodeRune; cbv zeta;
    repeat match goal with
           | |- context [len ?p <? ?k] =>
               let E := fresh "E" in
               destruct (len p <? k) eqn:E;
               [ exfalso; apply Z.ltb_lt in E;
                 match type of E with
                 | _ < ?k0 => let k' := eval vm_compute in k0 in
                              change k0 with k' in E
                 end;
                 rewrite ?len_cons in E; lia | clear E ]
           end;
    vm_compute; reflexivity |]).
  contradiction.
Qed.

(** *** The loops of package [bytes], one iteration at a time *)

Lemma indexFunc_loop_unfold (s : list byte) f truth (start : Z) :
  bytes.indexFunc_loop s f truth start =
  if start <? len s then
    if Bool.eqb (f (fst (bytes.rune_at s start))) truth then start
    else bytes.indexFunc_loop s f truth (start + snd (bytes.rune_at s start))
  else -1.
Proof.
  funelim (bytes.indexFunc_loop s f truth start).
  - destruct (start <? len s) eqn:E; [|apply Z.ltb_ge in E; lia].
    destruct (Bool.eqb _ _); reflexivity.
  - destruct (start <? len s) eqn:E; [apply Z.ltb_lt in E; lia|]. reflexivity.
Qed.

Lemma lastIndexFunc_loop_unfold (s : list byte) f truth (i : Z) :
  bytes.lastIndexFunc_loop s f truth i =
  if 0 <? i then
    if Bool.eqb (f (fst (bytes.rune_before s i))) truth
    then i - snd (bytes.rune_before s i)
    else bytes.lastIndexFunc_loop s f truth (i - snd (bytes.rune_before s i))
  else -1.
Proof.
  funelim (bytes.lastIndexFunc_loop s f truth i).
  - destruct (0 <? i) eqn:E; [|apply Z.ltb_ge in E; lia].
    destruct (Bool.eqb _ _); reflexivity.
  - destruct (0 <? i) eqn:E; [apply Z.ltb_lt in E; lia|]. reflexivity.
Qed.

Lemma TrimSpace_start_unfold (s : list byte) (start : Z) :
  bytes.TrimSpace_start s start =
  if start <? len s then
    if utf8.RuneSelf <=? index s start
    then bytes.Return (bytes.TrimFunc (slice s start (len s)) unicode.IsSpace)
    else if bytes.asciiSpace (index s start) =? 0 then bytes.Done start
    else bytes.TrimSpace_start s (start + 1)
  else bytes.Done start.
Proof.
  funelim (bytes.TrimSpace_start s start).
  - destruct (start <? len s) eqn:E; [|apply Z.ltb_ge in E; lia].
    destruct (utf8.RuneSelf <=? _); [reflexivity|].
    destruct (_ =? 0); reflexivity.
  - destruct (start <? len s) eqn:E; [apply Z.ltb_lt in E; lia|]. reflexivity.
Qed.

Lemma TrimSpace_stop_unfold (s : list byte) (start stop : Z) :
  bytes.TrimSpace_stop s start stop =
  if start <? stop then
    if utf8.RuneSelf <=? index s (stop - 1)
    then bytes.Return (bytes.TrimFunc (slice s start stop) unicode.IsSpace)
    else if bytes.asciiSpace (index s (stop - 1)) =? 0 then bytes.Done stop
    else bytes.TrimSpace_stop s start (stop - 1)
  else bytes.Done stop.
Proof.
  funelim (bytes.TrimSpace_stop s start stop).
  - destruct (start <? stop) eqn:E; [|apply Z.ltb_ge in E; lia].
    destruct (utf8.RuneSelf <=? _); [reflexivity|].
    destruct (_ =? 0); reflexivity.
  - destruct (start <? stop) eqn:E; [apply Z.ltb_lt in E; lia|]. reflexivity.
Qed.

Lemma DecodeLastRune_loop_unfold (p : list byte) (lim start : Z) :
  utf8.DecodeLastRune_loop p lim start =
  if start <? lim then start
  else if utf8.RuneStart (index p start) then start
       else utf8.DecodeLastRune_loop p lim (start - 1).
Proof.
  funelim (utf8.DecodeLastRune_loop p lim start).
  - destruct (start <? lim) eqn:E; [|apply Z.ltb_ge in E; lia]. reflexivity.
  - destruct (start <? lim) eqn:E; [apply Z.ltb_lt in E; lia|].
    destruct (utf8.RuneStart _); reflexivity.
Qed.

(** *** Leading white space: [indexFunc] and [TrimLeftFunc] *)

Lemma ascii_space (a : byte) :
  uint8 a < utf8.RuneSelf ->
  unicode.IsSpace (uint8 a) = true ->
  In (uint8 a) White_Space /\ [a] = utf8_encode (uint8 a).
Proof.
  intros Ha Hs. apply accepts_spec; [|exact Hs].
  assert (H : (if utf8.RuneSelf <=? uint8 a then true
               else accepts (uint8 a) [a]) = true)
    by (revert a Ha Hs; intros a _ _; revert a; apply forall_byte;
        vm_compute; reflexivity).
  destruct (utf8.RuneSelf <=? uint8 a) eqn:E; [apply Z.leb_le in E; lia|].
  exact H.
Qed.

Lemma white_space_run_nil : white_space_run [].
Proof. exists []. split; [constructor | reflexivity]. Qed.

Lemma white_space_run_cons (c : Z) (l : list byte) :
  In c White_Space -> white_space_run l -> white_space_run (utf8_encode c ++ l).
Proof.
  intros Hc (cs & Hcs & ->). exists (c :: cs). split; [constructor; auto | reflexivity].
Qed.

Lemma white_space_run_app (l1 l2 : list byte) :
  white_space_run l1 -> white_space_run l2 -> white_space_run (l1 ++ l2).
Proof.
  intros (cs1 & H1 & ->) (cs2 & H2 & ->). exists (cs1 ++ cs2).
  split; [apply Forall_app; auto | rewrite flat_map_app; reflexivity].
Qed.

Lemma white_space_run_one (c : Z) :
  In c White_Space -> white_space_run (utf8_encode c).
Proof.
  intros H. rewrite <- (app_nil_r (utf8_encode c)).
  apply white_space_run_cons; [exact H | apply white_space_run_nil].
Qed.

Lemma rune_at_ascii (pre : list byte) (a : byte) (rest : list byte) :
  uint8 a < utf8.RuneSelf ->
  bytes.rune_at (pre ++ a :: rest) (len pre) = (uint8 a, 1).
Proof.
  intros Ha. unfold bytes.rune_at.
  rewrite <- (Z.add_0_r (len pre)), index_app_r, index_head by lia.
  destruct (utf8.RuneSelf <=? uint8 a) eqn:E; [apply Z.leb_le in E; lia|].
  reflexivity.
Qed.

Lemma rune_at_token (pre : list byte) (c : Z) (rest : list byte) :
  In c White_Space ->
  bytes.rune_at (pre ++ utf8_encode c ++ rest) (len pre)
  = (c, len (utf8_encode c)).
Proof.
  intros Hc. destruct (utf8_encode_shape c Hc) as (a & t & Ht & Hlen & _ & Hlo & Hhi).
  destruct (c <? utf8.RuneSelf) eqn:E.
  - destruct (Hlo eq_refl) as [Hone Ha]. rewrite Hone. cbn [app].
    apply Z.ltb_lt in E. rewrite rune_at_ascii by lia.
    rewrite Ha. reflexivity.
  - destruct (Hhi eq_refl) as [Ha _]. unfold bytes.rune_at.
    rewrite slice_suffix.
    rewrite <- (Z.add_0_r (len pre)), index_app_r by lia.
    rewrite Ht at 1. cbn [app]. rewrite index_head.
    destruct (utf8.RuneSelf <=? uint8 a) eqn:E'; [|apply Z.leb_gt in E'; lia].
    apply DecodeRune_token, Hc.
Qed.

Lemma rune_at_space (pre suf : list byte) (r w : Z) :
  suf <> [] ->
  bytes.rune_at (pre ++ suf) (len pre) = (r, w) ->
  unicode.IsSpace r = true ->
  In r White_Space /\
  exists rest, suf = utf8_encode r ++ rest /\ w = len (utf8_encode r).
Proof.
  intros Hne H Hs. destruct suf as [|a rest]; [congruence|].
  unfold bytes.rune_at in H. rewrite slice_suffix in H.
  rewrite <- (Z.add_0_r (len pre)), index_app_r, index_head in H by lia.
  destruct (utf8.RuneSelf <=? uint8 a) eqn:E.
  - apply DecodeRune_space; assumption.
  - apply Z.leb_gt in E. apply pair_equal_spec in H. destruct H as [<- <-].
    destruct (ascii_space a E Hs) as [Hin Henc]. split; [exact Hin|].
    exists rest. rewrite <- Henc. split; reflexivity.
Qed.

(** [indexFunc] over a run of white space stops at the byte that follows
    it, or finds nothing when nothing follows. *)
Lemma indexFunc_loop_run (cs : list Z) :
  Forall (fun c => In c White_Space) cs ->
  forall pre rest,
    (rest = [] \/
     exists a t, rest = a :: t /\ uint8 a < utf8.RuneSelf /\
                 unicode.IsSpace (uint8 a) = false) ->
    bytes.indexFunc_loop (pre ++ flat_map utf8_encode cs ++ rest)
      unicode.IsSpace false (len pre)
    = match rest with
      | [] => -1
      | _ => len pre + len (flat_map utf8_encode cs)
      end.
Proof.
  induction 1 as [|c cs Hc Hcs IH]; intros pre rest Hrest.
  - cbn [flat_map app]. rewrite indexFunc_loop_unfold.
    destruct Hrest as [-> | (a & t & -> & Ha & Hs)].
    + rewrite app_nil_r, Z.ltb_irrefl. reflexivity.
    + rewrite rune_at_ascii by exact Ha. cbn [fst snd]. rewrite Hs.
      cbn [Bool.eqb].
      destruct (len pre <? len (pre ++ a :: t)) eqn:E;
        [|apply Z.ltb_ge in E; rewrite len_app, len_cons in E;
          pose proof (len_nonneg t); lia].
      change (len []) with 0. lia.
  - cbn [flat_map]. rewrite <- app_assoc. rewrite indexFunc_loop_unfold.
    rewrite rune_at_token by exact Hc. cbn [fst snd].
    rewrite (White_Space_IsSpace c Hc). cbn [Bool.eqb].
    destruct (utf8_encode_shape c Hc) as (a & t & Ht & Hlen & _).
    destruct (len pre <? _) eqn:E;
      [|apply Z.ltb_ge in E; rewrite !len_app in E;
        pose proof (len_nonneg (flat_map utf8_encode cs));
        pose proof (len_nonneg rest); lia].
    rewrite <- len_app, app_assoc. rewrite IH by exact Hrest.
    destruct rest; [reflexivity|]. rewrite !len_app. lia.
Qed.

(** [indexFunc] stops after a run of white space, or finds nothing in a
    slice that is one. *)
Lemma indexFunc_loop_spec (n : nat) :
  forall suf pre, (length suf <= n)%nat ->
    (bytes.indexFunc_loop (pre ++ suf) unicode.IsSpace false (len pre) = -1 /\
     white_space_run suf) \/
    (exists l rest,
        suf = l ++ rest /\ white_space_run l /\ rest <> [] /\
        bytes.indexFunc_loop (pre ++ suf) unicode.IsSpace false (len pre)
        = len pre + len l).
Proof.
  induction n as [|n IH]; intros suf pre Hn.
  - destruct suf; [|cbn in Hn; lia]. left.
    rewrite indexFunc_loop_unfold, app_nil_r, Z.ltb_irrefl.
    split; [reflexivity | apply white_space_run_nil].
  - destruct suf as [|a suf'].
    { left. rewrite indexFunc_loop_unfold, app_nil_r, Z.ltb_irrefl.
      split; [reflexivity | apply white_space_run_nil]. }
    set (suf := a :: suf') in *.
    rewrite indexFunc_loop_unfold.
    destruct (len pre <? len (pre ++ suf)) eqn:E;
      [|apply Z.ltb_ge in E; unfold suf in E; rewrite len_app, len_cons in E;
        pose proof (len_nonneg suf'); lia].
    destruct (bytes.rune_at (pre ++ suf) (len pre)) as [r w] eqn:Hrw.
    cbn [fst snd].
    destruct (unicode.IsSpace r) eqn:Hs; cbn [Bool.eqb].
    + destruct (rune_at_space pre suf r w) as (Hin & rest & Hsuf & Hw);
        [unfold suf; congruence | exact Hrw | exact Hs |].
      destruct (utf8_encode_shape r Hin) as (a0 & t0 & Ht0 & Hlen & _).
      rewrite Hsuf, Hw, app_assoc, <- len_app.
      destruct (IH rest (pre ++ utf8_encode r)) as [[Hk Hrun] | (l & rest' & Hrest & Hrun & Hne & Hk)].
      { apply (f_equal (@length byte)) in Hsuf. rewrite length_app in Hsuf.
        unfold len in Hlen. unfold suf in Hsuf, Hn. cbn [length] in Hsuf, Hn.
        lia. }
      * left. split; [exact Hk|].
        apply white_space_run_cons; assumption.
      * right. exists (utf8_encode r ++ l), rest'.
        rewrite Hk, Hrest, !len_app, <- app_assoc.
        repeat split; try assumption; try lia.
        apply white_space_run_cons; assumption.
    + right. exists [], suf. cbn [app]. change (len []) with 0.
      repeat split; [apply white_space_run_nil | unfold suf; congruence | lia].
Qed.

(** [TrimLeftFunc] cuts off a run of white space. *)
Lemma TrimLeftFunc_spec (s : list byte) :
  exists l, white_space_run l /\ s = l ++ bytes.TrimLeftFunc s unicode.IsSpace.
Proof.
  unfold bytes.TrimLeftFunc, bytes.indexFunc.
  destruct (indexFunc_loop_spec (length s) s [] (Nat.le_refl _))
    as [[Hk Hrun] | (l & rest & Hs & Hrun & Hne & Hk)];
    cbn [app] in Hk; change (len []) with 0 in Hk; rewrite Hk.
  - exists s. rewrite app_nil_r. split; [exact Hrun | reflexivity].
  - exists l. split; [exact Hrun|].
    destruct (0 + len l =? -1) eqn:E;
      [apply Z.eqb_eq in E; pose proof (len_nonneg l); lia|].
    rewrite Hs at 2 3. rewrite Z.add_0_l, slice_suffix. exact Hs.
Qed.

(** [TrimLeftFunc] of white space followed by an ASCII byte that is not
    white space cuts off the white space. *)
Lemma TrimLeftFunc_run (l : list byte) (a : byte) (t : list byte) :
  white_space_run l ->
  uint8 a < utf8.RuneSelf -> unicode.IsSpace (uint8 a) = false ->
  bytes.TrimLeftFunc (l ++ a :: t) unicode.IsSpace = a :: t.
Proof.
  intros (cs & Hcs & ->) Ha Hs.
  unfold bytes.TrimLeftFunc, bytes.indexFunc.
  pose proof (indexFunc_loop_run cs Hcs [] (a :: t)
                (or_intror (ex_intro _ a (ex_intro _ t (conj eq_refl (conj Ha Hs))))))
    as Hk.
  cbn [app] in Hk. change (len []) with 0 in Hk. rewrite Hk.
  destruct (0 + _ =? -1) eqn:E;
    [apply Z.eqb_eq in E; pose proof (len_nonneg (flat_map utf8_encode cs)); lia|].
  rewrite Z.add_0_l. apply slice_suffix.
Qed.

(** *** What [utf8.DecodeLastRune] takes for white space *)

Lemma DecodeRune_ascii (a : byte) (t : list byte) :
  uint8 a < utf8.RuneSelf -> utf8.DecodeRune (a :: t) = (uint8 a, 1).
Proof.
  intros Ha. unfold utf8.DecodeRune. cbv zeta.
  replace (len (a :: t) <? 1) with false
    by (symmetry; apply Z.ltb_ge; rewrite len_cons; pose proof (len_nonneg t); lia).
  rewrite index_head.
  assert (H : (if utf8.RuneSelf <=? uint8 a then true
               else (utf8.as_ <=? utf8.first (uint8 a)) &&
                    (Z.lor (Z.land (uint8 a)
                              (Z.lnot (Z.shiftr (int32 (Z.shiftl (utf8.first (uint8 a)) 31)) 31)))
                           (Z.land utf8.RuneError
                              (Z.shiftr (int32 (Z.shiftl (utf8.first (uint8 a)) 31)) 31))
                     =? uint8 a)) = true)
    by (clear Ha; revert a; apply forall_byte; vm_compute; reflexivity).
  destruct (utf8.RuneSelf <=? uint8 a) eqn:E; [apply Z.leb_le in E; lia|].
  apply andb_prop in H. destruct H as [H1 H2]. rewrite H1.
  apply Z.eqb_eq in H2. rewrite H2. reflexivity.
Qed.

Lemma slice_split (p : list byte) (i : Z) :
  0 <= i <= len p -> p = slice p 0 i ++ slice p i (len p).
Proof.
  intros H. unfold slice, len in *. cbn [Z.to_nat skipn]. rewrite Z.sub_0_r.
  rewrite (firstn_all2 (n := Z.to_nat (Z.of_nat (length p) - i)))
    by (rewrite length_skipn; lia).
  symmetry. apply firstn_skipn.
Qed.

Lemma len_slice (p : list byte) (i j : Z) :
  0 <= i <= j -> j <= len p -> len (slice p i j) = j - i.
Proof.
  intros Hi Hj. unfold slice, len in *.
  rewrite length_firstn, length_skipn. lia.
Qed.

Lemma len_zero_nil (p : list byte) : len p = 0 -> p = [].
Proof. destruct p; [reflexivity | rewrite len_cons; pose proof (len_nonneg p); lia]. Qed.

(** When the last byte of [p] is not ASCII, [utf8.DecodeLastRune] yields
    [(RuneError, 1)], or what [utf8.DecodeRune] makes of a suffix of [p]
    that it consumes whole. *)
Lemma DecodeLastRune_nonascii (p : list byte) (r size : Z) :
  utf8.RuneSelf <= index p (len p - 1) ->
  utf8.DecodeLastRune p = (r, size) ->
  (r = utf8.RuneError /\ size = 1 /\ 1 <= len p) \/
  (exists pre q, p = pre ++ q /\ len q = size /\ 1 <= size /\
                 utf8.DecodeRune q = (r, size)).
Proof.
  intros Hlast H. unfold utf8.DecodeLastRune in H. cbv zeta in H.
  assert (Hlen : 1 <= len p).
  { destruct p as [|a p]; [|rewrite len_cons; pose proof (len_nonneg p); lia].
    cbn in Hlast. unfold utf8.RuneSelf in Hlast. lia. }
  destruct (len p =? 0) eqn:E0; [apply Z.eqb_eq in E0; lia|].
  destruct (index p (len p - 1) <? utf8.RuneSelf) eqn:E1;
    [apply Z.ltb_lt in E1; lia|].
  set (lim := if len p - utf8.UTFMax <? 0 then 0 else len p - utf8.UTFMax) in H.
  pose proof (DecodeLastRune_loop_le p lim (len p - 1 - 1)) as Hle.
  set (st0 := utf8.DecodeLastRune_loop p lim (len p - 1 - 1)) in *.
  set (st := if st0 <? 0 then 0 else st0) in *.
  assert (Hst : 0 <= st <= len p - 1)
    by (unfold st; destruct (st0 <? 0) eqn:E2;
        [|apply Z.ltb_ge in E2]; lia).
  destruct (utf8.DecodeRune (slice p st (len p))) as [r' size'] eqn:Hd.
  destruct (negb (st + size' =? len p)) eqn:E3.
  - apply pair_equal_spec in H. destruct H as [<- <-]. left. auto.
  - apply negb_false_iff, Z.eqb_eq in E3.
    apply pair_equal_spec in H. destruct H as [<- <-]. right.
    exists (slice p 0 st), (slice p st (len p)).
    split; [apply slice_split; lia|].
    rewrite len_slice by lia. repeat split; try lia. exact Hd.
Qed.

(** Where [utf8.DecodeLastRune], on a slice whose last byte is not ASCII,
    yields a rune that [unicode.IsSpace] accepts, the slice ends with the
    encoding of that White_Space code point. *)
Lemma DecodeLastRune_space (p : list byte) (r size : Z) :
  utf8.RuneSelf <= index p (len p - 1) ->
  utf8.DecodeLastRune p = (r, size) ->
  unicode.IsSpace r = true ->
  In r White_Space /\
  exists pre, p = pre ++ utf8_encode r /\ size = len (utf8_encode r).
Proof.
  intros Hlast H Hs.
  destruct (DecodeLastRune_nonascii p r size Hlast H)
    as [(-> & _) | (pre & q & Hp & Hq & Hsz & Hd)]; [discriminate Hs|].
  destruct (DecodeRune_space q r size Hd Hs) as (Hin & rest & Hqr & Hw).
  split; [exact Hin|]. exists pre. split; [|exact Hw].
  assert (rest = []).
  { apply len_zero_nil. rewrite Hqr, len_app in Hq. lia. }
  subst rest. rewrite app_nil_r in Hqr. congruence.
Qed.

(** The width [utf8.DecodeLastRune] yields on such a slice lies within the
    slice, and the byte it goes back to is not ASCII either. *)
Lemma DecodeLastRune_start (p : list byte) (r size : Z) :
  utf8.RuneSelf <= index p (len p - 1) ->
  utf8.DecodeLastRune p = (r, size) ->
  1 <= size <= len p /\ utf8.RuneSelf <= index p (len p - size).
Proof.
  intros Hlast H.
  destruct (DecodeLastRune_nonascii p r size Hlast H)
    as [(-> & -> & Hlen) | (pre & q & Hp & Hq & Hsz & Hd)]; [split; [lia | exact Hlast]|].
  pose proof (len_nonneg pre) as Hpre.
  assert (Hlenp : len p = len pre + size) by (rewrite Hp, len_app; lia).
  split; [lia|].
  destruct q as [|a t]; [change (len []) with 0 in Hq; lia|].
  replace (len p - size) with (len pre + 0) by lia.
  rewrite Hp, index_app_r, index_head by lia.
  destruct (Z_lt_dec (uint8 a) utf8.RuneSelf) as [Ha|Ha]; [|lia].
  exfalso. rewrite (DecodeRune_ascii a t Ha) in Hd.
  apply pair_equal_spec in Hd. destruct Hd as [_ <-].
  assert (t = []) by (apply len_zero_nil; rewrite len_cons in Hq; lia).
  subst t. rewrite Hp in Hlast. rewrite len_app in Hlast.
  replace (len pre + len [a] - 1) with (len pre + 0) in Hlast
    by (change (len [a]) with 1; lia).
  rewrite index_app_r, index_head in Hlast by lia. lia.
Qed.

(** An encoding of white space in two or three bytes, as
    [utf8.DecodeLastRune] walks back over it. *)
Lemma utf8_encode_multibyte (c : Z) :
  In c White_Space -> utf8.RuneSelf <= c ->
  (exists a b, utf8_encode c = [a; b] /\
               utf8.RuneStart (uint8 a) = true /\ utf8.RuneSelf <= uint8 b) \/
  (exists a b d, utf8_encode c = [a; b; d] /\
                 utf8.RuneStart (uint8 a) = true /\
                 utf8.RuneStart (uint8 b) = false /\
                 utf8.RuneSelf <= uint8 d).
Proof.
  intros H Hc. cbn [White_Space In] in H. unfold utf8.RuneSelf in *.
  repeat (destruct H as [<- | H];
          [first [ lia
                 | left; eexists; eexists; split; [reflexivity|];
                   vm_compute; split; [reflexivity | discriminate]
                 | right; eexists; eexists; eexists; split; [reflexivity|];
                   vm_compute; repeat split; discriminate ] |]).
  contradiction.
Qed.

(** [utf8.DecodeLastRune] of a slice that ends with the encoding of a
    White_Space code point outside ASCII yields the code point and the
    width of the encoding. *)
Lemma DecodeLastRune_token (pre : list byte) (c : Z) :
  In c White_Space -> utf8.RuneSelf <= c ->
  utf8.DecodeLastRune (pre ++ utf8_encode c) = (c, len (utf8_encode c)).
Proof.
  intros Hin Hc. pose proof (len_nonneg pre) as Hpre.
  pose proof (DecodeRune_token c [] Hin) as Hd. rewrite app_nil_r in Hd.
  unfold utf8.DecodeLastRune. cbv zeta.
  destruct (utf8_encode_multibyte c Hin Hc)
    as [(a & b & He & Ha & Hb) | (a & b & d & He & Ha & Hb & Hd')];
    rewrite He in *; rewrite len_app.
  - change (len [a; b]) with 2 in *.
    destruct (len pre + 2 =? 0) eqn:E0; [apply Z.eqb_eq in E0; lia|].
    replace (len pre + 2 - 1) with (len pre + 1) by lia.
    rewrite index_app_r by lia. change (index [a; b] 1) with (uint8 b).
    destruct (uint8 b <? utf8.RuneSelf) eqn:E1; [apply Z.ltb_lt in E1; lia|].
    rewrite DecodeLastRune_loop_unfold.
    replace (len pre + 1 - 1) with (len pre + 0) by lia.
    rewrite index_app_r by lia. change (index [a; b] 0) with (uint8 a).
    rewrite Ha.
    match goal with
    | |- context [len pre + 0 <? ?lim] =>
        destruct (len pre + 0 <? lim) eqn:E2;
        [apply Z.ltb_lt in E2; unfold utf8.UTFMax in E2;
         destruct (len pre + 2 - 4 <? 0) eqn:E3;
         [|apply Z.ltb_ge in E3]; lia|]
    end.
    destruct (len pre + 0 <? 0) eqn:E4; [apply Z.ltb_lt in E4; lia|].
    rewrite Z.add_0_r.
    replace (len pre + 2) with (len (pre ++ [a; b]))
      by (rewrite len_app; reflexivity).
    rewrite slice_suffix, Hd.
    rewrite len_app. change (len [a; b]) with 2. rewrite Z.eqb_refl.
    reflexivity.
  - change (len [a; b; d]) with 3 in *.
    destruct (len pre + 3 =? 0) eqn:E0; [apply Z.eqb_eq in E0; lia|].
    replace (len pre + 3 - 1) with (len pre + 2) by lia.
    rewrite index_app_r by lia. change (index [a; b; d] 2) with (uint8 d).
    destruct (uint8 d <? utf8.RuneSelf) eqn:E1; [apply Z.ltb_lt in E1; lia|].
    assert (Hlim : forall k, 0 <= k ->
              (len pre + k <?
               (if len pre + 3 - utf8.UTFMax <? 0 then 0
                else len pre + 3 - utf8.UTFMax)) = false).
    { intros k Hk. apply Z.ltb_ge. unfold utf8.UTFMax.
      destruct (len pre + 3 - 4 <? 0) eqn:E3; [|apply Z.ltb_ge in E3]; lia. }
    rewrite DecodeLastRune_loop_unfold.
    replace (len pre + 2 - 1) with (len pre + 1) by lia.
    rewrite Hlim by lia.
    rewrite index_app_r by lia. change (index [a; b; d] 1) with (uint8 b).
    rewrite Hb.
    rewrite DecodeLastRune_loop_unfold.
    replace (len pre + 1 - 1) with (len pre + 0) by lia.
    rewrite Hlim by lia.
    rewrite index_app_r by lia. change (index [a; b; d] 0) with (uint8 a).
    rewrite Ha.
    destruct (len pre + 0 <? 0) eqn:E4; [apply Z.ltb_lt in E4; lia|].
    rewrite Z.add_0_r.
    replace (len pre + 3) with (len (pre ++ [a; b; d]))
      by (rewrite len_app; reflexivity).
    rewrite slice_suffix, Hd.
    rewrite len_app. change (len [a; b; d]) with 3. rewrite Z.eqb_refl.
    reflexivity.
Qed.

(** *** Trailing white space: [lastIndexFunc] and [TrimRightFunc] *)

Lemma len_snoc (p : list byte) (a : byte) : len (p ++ [a]) = len p + 1.
Proof. rewrite len_app. reflexivity. Qed.

Lemma index_last (p : list byte) (a : byte) (x : list byte) :
  index (p ++ a :: x) (len p) = uint8 a.
Proof.
  pose proof (len_nonneg p).
  rewrite <- (Z.add_0_r (len p)), index_app_r, index_head by lia. reflexivity.
Qed.

Lemma rune_before_prefix (p x : list byte) :
  p <> [] ->
  bytes.rune_before (p ++ x) (len p) = bytes.rune_before p (len p).
Proof.
  intros Hp. unfold bytes.rune_before.
  assert (1 <= len p)
    by (destruct p; [congruence | rewrite len_cons; pose proof (len_nonneg p); lia]).
  rewrite index_app_l by lia. rewrite slice_app_l by lia. reflexivity.
Qed.

Lemma rune_before_ascii (p : list byte) (a : byte) :
  uint8 a < utf8.RuneSelf ->
  bytes.rune_before (p ++ [a]) (len (p ++ [a])) = (uint8 a, 1).
Proof.
  intros Ha. unfold bytes.rune_before. rewrite len_snoc.
  replace (len p + 1 - 1) with (len p) by lia. rewrite index_last.
  destruct (utf8.RuneSelf <=? uint8 a) eqn:E; [apply Z.leb_le in E; lia|].
  reflexivity.
Qed.

Lemma rune_before_token (p : list byte) (c : Z) :
  In c White_Space ->
  bytes.rune_before (p ++ utf8_encode c) (len (p ++ utf8_encode c))
  = (c, len (utf8_encode c)).
Proof.
  intros Hc. destruct (utf8_encode_shape c Hc) as (a & t & Ht & Hlen & _ & Hlo & _).
  destruct (c <? utf8.RuneSelf) eqn:E.
  - destruct (Hlo eq_refl) as [Hone Ha]. rewrite Hone.
    apply Z.ltb_lt in E. rewrite rune_before_ascii by lia.
    rewrite Ha. reflexivity.
  - apply Z.ltb_ge in E. unfold bytes.rune_before.
    rewrite slice_all.
    assert (Hlast : utf8.RuneSelf <=
                    index (p ++ utf8_encode c) (len (p ++ utf8_encode c) - 1)).
    { pose proof (len_nonneg p).
      destruct (utf8_encode_multibyte c Hc E)
        as [(a' & b & He & _ & Hb) | (a' & b & d & He & _ & _ & Hd)];
        rewrite He, len_app.
      - change (len [a'; b]) with 2.
        replace (len p + 2 - 1) with (len p + 1) by lia.
        rewrite index_app_r by lia. exact Hb.
      - change (len [a'; b; d]) with 3.
        replace (len p + 3 - 1) with (len p + 2) by lia.
        rewrite index_app_r by lia. exact Hd. }
    destruct (utf8.RuneSelf <=? _) eqn:E'; [|apply Z.leb_gt in E'; lia].
    apply DecodeLastRune_token; assumption.
Qed.

(** The rune [lastIndexFunc] reads at the end of [p], when it is white
    space: [p] ends with its encoding. *)
Lemma rune_before_space (p : list byte) (r size : Z) :
  p <> [] ->
  bytes.rune_before p (len p) = (r, size) ->
  unicode.IsSpace r = true ->
  In r White_Space /\
  exists pre, p = pre ++ utf8_encode r /\ size = len (utf8_encode r).
Proof.
  intros Hp H Hs. unfold bytes.rune_before in H. rewrite slice_all in H.
  destruct (utf8.RuneSelf <=? index p (len p - 1)) eqn:E.
  - apply Z.leb_le in E. apply DecodeLastRune_space; assumption.
  - apply Z.leb_gt in E. apply pair_equal_spec in H. destruct H as [<- <-].
    destruct (exists_last Hp) as (pre & a & ->).
    rewrite len_snoc in *. replace (len pre + 1 - 1) with (len pre) in * by lia.
    rewrite index_last in *.
    destruct (ascii_space a E Hs) as [Hin Henc]. split; [exact Hin|].
    exists pre. rewrite <- Henc. split; reflexivity.
Qed.

(** The rune [lastIndexFunc] reads at the end of [p], when it is not white
    space: an ASCII byte, or a rune that starts with a byte outside
    ASCII. *)
Lemma rune_before_other (p : list byte) (r size : Z) :
  p <> [] ->
  bytes.rune_before p (len p) = (r, size) ->
  (exists pre a, p = pre ++ [a] /\ size = 1 /\ r = uint8 a /\
                 uint8 a < utf8.RuneSelf) \/
  (1 <= size <= len p /\ utf8.RuneSelf <= index p (len p - size)).
Proof.
  intros Hp H. unfold bytes.rune_before in H. rewrite slice_all in H.
  destruct (utf8.RuneSelf <=? index p (len p - 1)) eqn:E.
  - apply Z.leb_le in E. right. eapply DecodeLastRune_start; eassumption.
  - apply Z.leb_gt in E. apply pair_equal_spec in H. destruct H as [<- <-].
    destruct (exists_last Hp) as (pre & a & ->). left. exists pre, a.
    rewrite len_snoc in *. replace (len pre + 1 - 1) with (len pre) in * by lia.
    rewrite index_last in *. auto.
Qed.

Lemma rune_before_width (p : list byte) :
  p <> [] -> 1 <= snd (bytes.rune_before p (len p)) <= len p.
Proof.
  intros Hp. destruct (bytes.rune_before p (len p)) as [r size] eqn:H.
  cbn [snd].
  destruct (rune_before_other p r size Hp H)
    as [(pre & a & -> & -> & _) | [Hsz _]]; [|exact Hsz].
  rewrite len_snoc. pose proof (len_nonneg pre). lia.
Qed.

Lemma lastIndexFunc_loop_nil f truth (x : list byte) :
  bytes.lastIndexFunc_loop x f truth 0 = -1.
Proof. rewrite lastIndexFunc_loop_unfold. reflexivity. Qed.

(** [lastIndexFunc] from [i] reads nothing beyond [i]. *)
Lemma lastIndexFunc_loop_prefix f truth (n : nat) :
  forall p x, (length p <= n)%nat ->
    bytes.lastIndexFunc_loop (p ++ x) f truth (len p)
    = bytes.lastIndexFunc_loop p f truth (len p).
Proof.
  induction n as [|n IH]; intros p x Hn.
  - destruct p; [|cbn in Hn; lia]. change (len []) with 0.
    rewrite !lastIndexFunc_loop_nil. reflexivity.
  - destruct (list_eq_dec Byte.byte_eq_dec p []) as [-> | Hp].
    { change (len []) with 0. rewrite !lastIndexFunc_loop_nil. reflexivity. }
    rewrite (lastIndexFunc_loop_unfold (p ++ x)), (lastIndexFunc_loop_unfold p).
    rewrite rune_before_prefix by exact Hp.
    pose proof (rune_before_width p Hp) as Hw.
    destruct (bytes.rune_before p (len p)) as [r size]. cbn [fst snd] in *.
    destruct (0 <? len p); [|reflexivity].
    destruct (Bool.eqb (f r) truth); [reflexivity|].
    pose proof (slice_split p (len p - size)) as Hsplit.
    set (p1 := slice p 0 (len p - size)) in *.
    set (q := slice p (len p - size) (len p)) in *.
    assert (Hp1 : len p1 = len p - size) by (unfold p1; rewrite len_slice by lia; lia).
    rewrite Hsplit at 1 3 by lia. rewrite <- Hp1.
    assert (Hlt : (length p1 <= n)%nat) by (unfold len in *; lia).
    rewrite <- app_assoc.
    rewrite (IH p1 (q ++ x) Hlt), (IH p1 q Hlt). reflexivity.
Qed.

(** [lastIndexFunc] over a trailing run of white space stops at the ASCII
    byte before it. *)
Lemma lastIndexFunc_loop_run (s1 : list byte) (a : byte) (cs : list Z) :
  uint8 a < utf8.RuneSelf -> unicode.IsSpace (uint8 a) = false ->
  Forall (fun c => In c White_Space) cs ->
  bytes.lastIndexFunc_loop (s1 ++ a :: flat_map utf8_encode cs)
    unicode.IsSpace false (len (s1 ++ a :: flat_map utf8_encode cs))
  = len s1.
Proof.
  intros Ha Hs. induction cs as [|c cs IH] using rev_ind; intros Hcs.
  - cbn [flat_map]. rewrite lastIndexFunc_loop_unfold.
    rewrite rune_before_ascii by exact Ha. cbn [fst snd]. rewrite Hs.
    cbn [Bool.eqb]. rewrite len_snoc. pose proof (len_nonneg s1).
    destruct (0 <? len s1 + 1) eqn:E; [|apply Z.ltb_ge in E]; lia.
  - apply Forall_app in Hcs. destruct Hcs as [Hcs Hc].
    apply Forall_inv in Hc.
    rewrite flat_map_app. cbn [flat_map]. rewrite app_nil_r.
    change (s1 ++ a :: flat_map utf8_encode cs ++ utf8_encode c)
      with (s1 ++ (a :: flat_map utf8_encode cs) ++ utf8_encode c).
    rewrite app_assoc.
    set (p := s1 ++ a :: flat_map utf8_encode cs) in *.
    rewrite lastIndexFunc_loop_unfold.
    rewrite rune_before_token by exact Hc. cbn [fst snd].
    rewrite (White_Space_IsSpace c Hc). cbn [Bool.eqb].
    destruct (utf8_encode_shape c Hc) as (a0 & t0 & Ht0 & Hlen & _).
    rewrite len_app. pose proof (len_nonneg p).
    destruct (0 <? len p + len (utf8_encode c)) eqn:E;
      [|apply Z.ltb_ge in E; lia].
    replace (len p + len (utf8_encode c) - len (utf8_encode c)) with (len p)
      by lia.
    rewrite (lastIndexFunc_loop_prefix _ _ (length p)) by lia.
    apply IH, Hcs.
Qed.

(** Where [lastIndexFunc] stops: nowhere, at an ASCII byte that a run of
    white space follows, or at a byte outside ASCII. *)
Lemma lastIndexFunc_loop_spec (n : nat) :
  forall p, (length p <= n)%nat ->
    let k := bytes.lastIndexFunc_loop p unicode.IsSpace false (len p) in
    k = -1 \/
    (exists s1 a r, p = s1 ++ a :: r /\ k = len s1 /\ white_space_run r /\
                    uint8 a < utf8.RuneSelf) \/
    (0 <= k < len p /\ utf8.RuneSelf <= index p k).
Proof.
  induction n as [|n IH]; intros p Hn; cbv zeta.
  - destruct p; [|cbn in Hn; lia]. left. apply lastIndexFunc_loop_nil.
  - destruct (list_eq_dec Byte.byte_eq_dec p []) as [-> | Hp].
    { left. apply lastIndexFunc_loop_nil. }
    rewrite lastIndexFunc_loop_unfold.
    assert (Hlen : 1 <= len p)
      by (destruct p; [congruence | rewrite len_cons; pose proof (len_nonneg p); lia]).
    destruct (0 <? len p) eqn:E; [|apply Z.ltb_ge in E; lia].
    destruct (bytes.rune_before p (len p)) as [r size] eqn:Hrb.
    cbn [fst snd].
    destruct (unicode.IsSpace r) eqn:Hs; cbn [Bool.eqb].
    + destruct (rune_before_space p r size Hp Hrb Hs) as (Hin & pre & -> & ->).
      destruct (utf8_encode_shape r Hin) as (a0 & t0 & Ht0 & Hlen0 & _).
      rewrite len_app.
      replace (len pre + len (utf8_encode r) - len (utf8_encode r))
        with (len pre) by lia.
      rewrite (lastIndexFunc_loop_prefix _ _ (length pre)) by lia.
      assert (Hpre : (length pre <= n)%nat).
      { rewrite length_app in Hn. unfold len in Hlen0. lia. }
      destruct (IH pre Hpre) as [Hk | [(s1 & a & r' & Hpre' & Hk & Hrun & Ha) | [Hk Hidx]]].
      * left. exact Hk.
      * right. left. exists s1, a, (r' ++ utf8_encode r).
        rewrite Hpre' at 1. rewrite <- app_assoc. cbn [app].
        repeat split; try assumption.
        apply white_space_run_app; [exact Hrun | apply white_space_run_one, Hin].
      * right. right. rewrite index_app_l by lia.
        pose proof (len_nonneg (utf8_encode r)). split; [lia | exact Hidx].
    + destruct (rune_before_other p r size Hp Hrb)
        as [(pre & a & -> & -> & -> & Ha) | [Hsz Hidx]].
      * right. left. exists pre, a, []. rewrite len_snoc.
        repeat split; [lia | apply white_space_run_nil | exact Ha].
      * right. right. split; [lia | exact Hidx].
Qed.

(** [TrimRightFunc] of an ASCII byte that is not white space followed by
    white space cuts off the white space. *)
Lemma TrimRightFunc_run (s1 : list byte) (a : byte) (r : list byte) :
  white_space_run r ->
  uint8 a < utf8.RuneSelf -> unicode.IsSpace (uint8 a) = false ->
  bytes.TrimRightFunc (s1 ++ a :: r) unicode.IsSpace = s1 ++ [a].
Proof.
  intros (cs & Hcs & ->) Ha Hs.
  unfold bytes.TrimRightFunc, bytes.lastIndexFunc. cbv zeta.
  rewrite lastIndexFunc_loop_run by assumption.
  rewrite index_last.
  destruct (utf8.RuneSelf <=? uint8 a) eqn:E; [apply Z.leb_le in E; lia|].
  rewrite andb_false_r.
  change (s1 ++ a :: flat_map utf8_encode cs)
    with (s1 ++ [a] ++ flat_map utf8_encode cs).
  rewrite app_assoc, <- (len_snoc s1 a). apply slice_prefix.
Qed.

Lemma index_slice_prefix (t : list byte) (k j : Z) :
  0 <= k < j -> index (slice t 0 j) k = index t k.
Proof.
  intros H. unfold index, slice. cbn [Z.to_nat skipn]. rewrite Z.sub_0_r.
  rewrite nth_firstn.
  destruct (Nat.ltb_spec (Z.to_nat k) (Z.to_nat j)); [reflexivity | lia].
Qed.

(** When [TrimRightFunc] leaves ASCII bytes, and at least one, what it cut
    off is a run of white space. *)
Lemma TrimRightFunc_spec (t res : list byte) :
  bytes.TrimRightFunc t unicode.IsSpace = res ->
  res <> [] ->
  Forall (fun b => uint8 b < utf8.RuneSelf) res ->
  exists r, white_space_run r /\ t = res ++ r.
Proof.
  intros H Hne Hascii. unfold bytes.TrimRightFunc, bytes.lastIndexFunc in H.
  cbv zeta in H.
  destruct (lastIndexFunc_loop_spec (length t) t (Nat.le_refl _))
    as [Hk | [(s1 & a & r & Ht & Hk & Hrun & Ha) | [Hk Hidx]]];
    cbv zeta in *.
  - rewrite Hk in H. cbn [Z.leb Z.compare andb] in H.
    change (-1 + 1) with 0 in H. rewrite slice_empty in H. congruence.
  - rewrite Hk in H.
    assert (Hi : index t (len s1) = uint8 a) by (rewrite Ht; apply index_last).
    rewrite Hi in H.
    destruct (utf8.RuneSelf <=? uint8 a) eqn:E; [apply Z.leb_le in E; lia|].
    rewrite andb_false_r in H. exists r. split; [exact Hrun|].
    rewrite <- H. clear H Hk Hi. subst t.
    change (s1 ++ a :: r) with (s1 ++ [a] ++ r).
    rewrite app_assoc, <- (len_snoc s1 a), slice_prefix. reflexivity.
  - exfalso.
    set (k := bytes.lastIndexFunc_loop t unicode.IsSpace false (len t)) in *.
    destruct (0 <=? k) eqn:E0; [|apply Z.leb_gt in E0; lia].
    destruct (utf8.RuneSelf <=? index t k) eqn:E1; [|apply Z.leb_gt in E1; lia].
    cbn [andb] in H.
    assert (Hw : 1 <= snd (utf8.DecodeRune (slice t k (len t)))).
    { apply DecodeRune_width. intros Hnil.
      apply (f_equal len) in Hnil. rewrite len_slice in Hnil by lia.
      change (len []) with 0 in Hnil. lia. }
    set (w := snd (utf8.DecodeRune (slice t k (len t)))) in *.
    assert (Hidx' : index res k = index t k)
      by (rewrite <- H; apply index_slice_prefix; lia).
    assert (Hklen : k < len res).
    { rewrite <- H. unfold slice, len in *. cbn [Z.to_nat skipn].
      rewrite length_firstn. lia. }
    assert (Hin : In (nth (Z.to_nat k) res x00) res)
      by (apply nth_In; unfold len in Hklen; lia).
    rewrite Forall_forall in Hascii. apply Hascii in Hin.
    unfold index in Hidx', Hidx. lia.
Qed.

(** *** [TrimFunc] and [TrimSpace] on [null] *)

Lemma null_literal_ascii : Forall (fun b => uint8 b < utf8.RuneSelf) null_literal.
Proof. repeat constructor. Qed.

Lemma TrimFunc_null (s : list byte) :
  bytes.TrimFunc s unicode.IsSpace = null_literal <-> padded_null s.
Proof.
  unfold bytes.TrimFunc. split.
  - intros H. destruct (TrimLeftFunc_spec s) as (l & Hl & Hs).
    destruct (TrimRightFunc_spec _ _ H) as (r & Hr & Ht);
      [discriminate | apply null_literal_ascii |].
    exists l, r. rewrite <- Ht. auto.
  - intros (l & r & Hl & Hr & ->).
    change (null_literal ++ r) with ("n"%byte :: (list_byte_of_string "ull" ++ r)).
    rewrite TrimLeftFunc_run by (first [exact Hl | reflexivity]).
    change ("n"%byte :: list_byte_of_string "ull" ++ r)
      with (list_byte_of_string "nul" ++ "l"%byte :: r).
    rewrite TrimRightFunc_run by (first [exact Hr | reflexivity]).
    reflexivity.
Qed.

Lemma asciiSpace_IsSpace (a : byte) :
  uint8 a < utf8.RuneSelf ->
  (bytes.asciiSpace (uint8 a) =? 0) = negb (unicode.IsSpace (uint8 a)).
Proof.
  intros Ha.
  assert (H : (if utf8.RuneSelf <=? uint8 a then true
               else Bool.eqb (bytes.asciiSpace (uint8 a) =? 0)
                             (negb (unicode.IsSpace (uint8 a)))) = true)
    by (clear Ha; revert a; apply forall_byte; vm_compute; reflexivity).
  destruct (utf8.RuneSelf <=? uint8 a) eqn:E; [apply Z.leb_le in E; lia|].
  apply Bool.eqb_prop in H. exact H.
Qed.

Lemma padded_null_intro (l r : list byte) :
  white_space_run l -> white_space_run r -> padded_null (l ++ null_literal ++ r).
Proof. intros Hl Hr. exists l, r. auto. Qed.

(** The first loop of [TrimSpace] on white space followed by [null] and
    white space: it returns [null], or ends at the [n]. *)
Lemma TrimSpace_start_run (cs : list Z) :
  Forall (fun c => In c White_Space) cs ->
  forall pre r, white_space_run r ->
    bytes.TrimSpace_start (pre ++ flat_map utf8_encode cs ++ null_literal ++ r)
      (len pre) = bytes.Return null_literal \/
    bytes.TrimSpace_start (pre ++ flat_map utf8_encode cs ++ null_literal ++ r)
      (len pre) = bytes.Done (len pre + len (flat_map utf8_encode cs)).
Proof.
  induction 1 as [|c cs Hc Hcs IH]; intros pre r Hr;
    pose proof (len_nonneg pre) as Hpre.
  - right. cbn [flat_map app]. rewrite TrimSpace_start_unfold.
    change (null_literal ++ r) with ("n"%byte :: list_byte_of_string "ull" ++ r).
    rewrite index_last.
    destruct (len pre <? _) eqn:E;
      [|apply Z.ltb_ge in E; rewrite len_app, len_cons in E;
        pose proof (len_nonneg (list_byte_of_string "ull" ++ r)); lia].
    change (utf8.RuneSelf <=? uint8 "n") with false.
    change (bytes.asciiSpace (uint8 "n") =? 0) with true.
    cbn iota. change (len []) with 0. f_equal. lia.
  - cbn [flat_map]. rewrite <- app_assoc.
    set (rest := flat_map utf8_encode cs ++ null_literal ++ r) in *.
    rewrite TrimSpace_start_unfold.
    destruct (utf8_encode_shape c Hc) as (a & t & Ht & Hlen & _ & Hlo & Hhi).
    assert (Hidx : index (pre ++ utf8_encode c ++ rest) (len pre) = uint8 a)
      by (rewrite Ht; cbn [app]; apply index_last).
    rewrite Hidx.
    destruct (len pre <? _) eqn:E;
      [|apply Z.ltb_ge in E; rewrite !len_app in E;
        pose proof (len_nonneg rest); lia].
    destruct (c <? utf8.RuneSelf) eqn:Ec.
    + destruct (Hlo eq_refl) as [Hone Ha]. apply Z.ltb_lt in Ec.
      destruct (utf8.RuneSelf <=? uint8 a) eqn:E1; [apply Z.leb_le in E1; lia|].
      rewrite asciiSpace_IsSpace by lia.
      rewrite Ha, (White_Space_IsSpace c Hc). cbn [negb].
      rewrite Hone. rewrite app_assoc, <- (len_snoc pre a).
      destruct (IH (pre ++ [a]) r Hr) as [IH' | IH']; fold rest in IH';
        rewrite IH'; [left; reflexivity | right].
      f_equal. rewrite len_snoc, len_app. change (len [a]) with 1. lia.
    + destruct (Hhi eq_refl) as [Ha _].
      destruct (utf8.RuneSelf <=? uint8 a) eqn:E1; [|apply Z.leb_gt in E1; lia].
      left. f_equal. rewrite slice_suffix. apply TrimFunc_null.
      unfold rest. rewrite app_assoc. apply padded_null_intro; [|exact Hr].
      apply white_space_run_cons; [exact Hc|]. exists cs. auto.
Qed.

(** The second loop of [TrimSpace] on [null] followed by white space: it
    returns [null], or ends right after the last [l]. *)
Lemma TrimSpace_stop_run (cs : list Z) :
  Forall (fun c => In c White_Space) cs ->
  forall l x,
    bytes.TrimSpace_stop ((l ++ null_literal ++ flat_map utf8_encode cs) ++ x)
      (len l) (len (l ++ null_literal ++ flat_map utf8_encode cs))
    = bytes.Return null_literal \/
    bytes.TrimSpace_stop ((l ++ null_literal ++ flat_map utf8_encode cs) ++ x)
      (len l) (len (l ++ null_literal ++ flat_map utf8_encode cs))
    = bytes.Done (len l + 4).
Proof.
  induction cs as [|c cs IH] using rev_ind; intros Hcs l x;
    pose proof (len_nonneg l) as Hl.
  - right. cbn [flat_map]. rewrite app_nil_r.
    rewrite TrimSpace_stop_unfold.
    rewrite len_app. change (len null_literal) with 4.
    destruct (len l <? len l + 4) eqn:E; [|apply Z.ltb_ge in E; lia].
    assert (Hidx : index ((l ++ null_literal) ++ x) (len l + 4 - 1)
                   = uint8 "l").
    { change null_literal with (list_byte_of_string "nul" ++ ["l"%byte]).
      rewrite app_assoc, <- app_assoc. cbn [app].
      replace (len l + 4 - 1) with (len (l ++ list_byte_of_string "nul"))
        by (rewrite len_app; change (len (list_byte_of_string "nul")) with 3; lia).
      apply index_last. }
    rewrite Hidx.
    change (utf8.RuneSelf <=? uint8 "l") with false.
    change (bytes.asciiSpace (uint8 "l") =? 0) with true.
    reflexivity.
  - apply Forall_app in Hcs. destruct Hcs as [Hcs Hc]. apply Forall_inv in Hc.
    rewrite flat_map_app. cbn [flat_map]. rewrite app_nil_r.
    rewrite !app_assoc. rewrite <- (app_assoc l).
    set (p0 := l ++ null_literal ++ flat_map utf8_encode cs) in *.
    pose proof (len_nonneg p0) as Hp0.
    assert (Hlp0 : len l + 4 <= len p0).
    { unfold p0. rewrite !len_app. change (len null_literal) with 4.
      pose proof (len_nonneg (flat_map utf8_encode cs)). lia. }
    rewrite TrimSpace_stop_unfold.
    destruct (utf8_encode_shape c Hc) as (a & t & Ht & Hlen & _ & Hlo & _).
    rewrite len_app.
    destruct (len l <? len p0 + len (utf8_encode c)) eqn:E;
      [|apply Z.ltb_ge in E; lia].
    destruct (c <? utf8.RuneSelf) eqn:Ec.
    + destruct (Hlo eq_refl) as [Hone Ha]. apply Z.ltb_lt in Ec.
      rewrite Hone. change (len [a]) with 1.
      replace (len p0 + 1 - 1) with (len p0) by lia.
      rewrite <- app_assoc. cbn [app]. rewrite index_last.
      destruct (utf8.RuneSelf <=? uint8 a) eqn:E1; [apply Z.leb_le in E1; lia|].
      rewrite asciiSpace_IsSpace by lia.
      rewrite Ha, (White_Space_IsSpace c Hc). cbn [negb].
      apply (IH Hcs l (a :: x)).
    + apply Z.ltb_ge in Ec.
      assert (Hlast : utf8.RuneSelf <=
                index ((p0 ++ utf8_encode c) ++ x)
                      (len p0 + len (utf8_encode c) - 1)).
      { rewrite <- app_assoc.
        destruct (utf8_encode_multibyte c Hc Ec)
          as [(a' & b & He & _ & Hb) | (a' & b & d & He & _ & _ & Hd)];
          rewrite He.
        - change (len [a'; b]) with 2.
          replace (len p0 + 2 - 1) with (len p0 + 1) by lia.
          rewrite index_app_r by lia. exact Hb.
        - change (len [a'; b; d]) with 3.
          replace (len p0 + 3 - 1) with (len p0 + 2) by lia.
          rewrite index_app_r by lia. exact Hd. }
      destruct (utf8.RuneSelf <=? _) eqn:E1; [|apply Z.leb_gt in E1; lia].
      left. f_equal. rewrite <- len_app.
      rewrite slice_app_l by (rewrite ?len_app; lia).
      unfold p0. rewrite <- !app_assoc.
      rewrite len_app.
      rewrite <- (Z.add_0_r (len l)) at 1.
      rewrite slice_app_r by lia. rewrite slice_all.
      apply TrimFunc_null.
      change (null_literal ++ flat_map utf8_encode cs ++ utf8_encode c)
        with ([] ++ null_literal ++ flat_map utf8_encode cs ++ utf8_encode c).
      apply padded_null_intro; [apply white_space_run_nil|].
      apply white_space_run_app; [exists cs; auto | apply white_space_run_one, Hc].
Qed.

(** What the first loop of [TrimSpace] passes over is white space. *)
Lemma TrimSpace_start_spec (n : nat) :
  forall suf pre, (length suf <= n)%nat ->
    match bytes.TrimSpace_start (pre ++ suf) (len pre) with
    | bytes.Return res =>
        exists l rest, suf = l ++ rest /\ white_space_run l /\
                       res = bytes.TrimFunc rest unicode.IsSpace
    | bytes.Done k =>
        exists l rest, suf = l ++ rest /\ white_space_run l /\
                       k = len pre + len l
    end.
Proof.
  induction n as [|n IH]; intros suf pre Hn; pose proof (len_nonneg pre) as Hpre.
  - destruct suf; [|cbn in Hn; lia].
    rewrite TrimSpace_start_unfold, app_nil_r, Z.ltb_irrefl.
    exists [], []. change (len []) with 0.
    repeat split; [apply white_space_run_nil | lia].
  - destruct suf as [|a suf].
    { rewrite TrimSpace_start_unfold, app_nil_r, Z.ltb_irrefl.
      exists [], []. change (len []) with 0.
      repeat split; [apply white_space_run_nil | lia]. }
    rewrite TrimSpace_start_unfold. rewrite index_last.
    destruct (len pre <? _) eqn:E;
      [|apply Z.ltb_ge in E; rewrite len_app, len_cons in E;
        pose proof (len_nonneg suf); lia].
    destruct (utf8.RuneSelf <=? uint8 a) eqn:E1.
    + exists [], (a :: suf). rewrite slice_suffix.
      repeat split. apply white_space_run_nil.
    + apply Z.leb_gt in E1. rewrite asciiSpace_IsSpace by exact E1.
      destruct (unicode.IsSpace (uint8 a)) eqn:Hs; cbn [negb].
      * destruct (ascii_space a E1 Hs) as [Hin Henc].
        change (pre ++ a :: suf) with (pre ++ [a] ++ suf).
        rewrite app_assoc, <- (len_snoc pre a).
        cbn [length] in Hn.
        specialize (IH suf (pre ++ [a]) ltac:(lia)).
        destruct (bytes.TrimSpace_start _ _) as [res|k];
          destruct IH as (l & rest & Hsuf & Hrun & Hres);
          exists ([a] ++ l), rest; rewrite Hsuf; (split; [reflexivity|]);
          (split; [rewrite Henc; apply white_space_run_cons; assumption|]).
        -- exact Hres.
        -- rewrite Hres, len_snoc, len_app. change (len [a]) with 1. lia.
      * exists [], (a :: suf). change (len []) with 0.
        repeat split; [apply white_space_run_nil | lia].
Qed.

(** What the second loop of [TrimSpace] passes over is white space. *)
Lemma TrimSpace_stop_spec (n : nat) :
  forall p x start, (length p <= n)%nat -> 0 <= start <= len p ->
    match bytes.TrimSpace_stop (p ++ x) start (len p) with
    | bytes.Return res =>
        exists p' r, p = p' ++ r /\ white_space_run r /\ start <= len p' /\
                     res = bytes.TrimFunc (slice p' start (len p')) unicode.IsSpace
    | bytes.Done k =>
        exists p' r, p = p' ++ r /\ white_space_run r /\ k = len p' /\ start <= k
    end.
Proof.
  induction n as [|n IH]; intros p x start Hn Hstart.
  - destruct p; [|cbn in Hn; lia]. change (len []) with 0 in *.
    rewrite TrimSpace_stop_unfold.
    destruct (start <? 0) eqn:E; [apply Z.ltb_lt in E; lia|].
    exists [], []. change (len []) with 0.
    repeat split; [apply white_space_run_nil | lia].
  - rewrite TrimSpace_stop_unfold.
    destruct (start <? len p) eqn:E.
    2:{ exists p, []. rewrite app_nil_r.
        repeat split; [apply white_space_run_nil | lia]. }
    apply Z.ltb_lt in E.
    assert (Hp : p <> []) by (intros ->; change (len []) with 0 in E; lia).
    destruct (exists_last Hp) as (q & a & ->).
    rewrite len_snoc in *. pose proof (len_nonneg q) as Hq.
    replace (len q + 1 - 1) with (len q) by lia.
    rewrite <- app_assoc. cbn [app]. rewrite index_last.
    destruct (utf8.RuneSelf <=? uint8 a) eqn:E1.
    + exists (q ++ [a]), []. rewrite app_nil_r, len_snoc.
      change (q ++ a :: x) with (q ++ [a] ++ x). rewrite app_assoc.
      rewrite slice_app_l by (rewrite ?len_snoc; lia).
      repeat split; [apply white_space_run_nil | lia].
    + apply Z.leb_gt in E1. rewrite asciiSpace_IsSpace by exact E1.
      destruct (unicode.IsSpace (uint8 a)) eqn:Hs; cbn [negb].
      * destruct (ascii_space a E1 Hs) as [Hin Henc].
        rewrite length_app in Hn. cbn [length] in Hn.
        specialize (IH q (a :: x) start ltac:(lia) ltac:(lia)).
        destruct (bytes.TrimSpace_stop _ _ _) as [res|k];
          destruct IH as (p' & r & Hqr & Hrun & H1 & H2);
          exists p', (r ++ [a]); rewrite Hqr, <- app_assoc;
          (split; [reflexivity|]);
          (split; [rewrite Henc; apply white_space_run_app;
                   [exact Hrun | apply white_space_run_one, Hin]|]);
          auto.
      * exists (q ++ [a]), []. rewrite app_nil_r, len_snoc.
        repeat split; [apply white_space_run_nil | lia].
Qed.

Lemma app_eq_app_prefix (l rest p' r : list byte) :
  l ++ rest = p' ++ r -> len l <= len p' ->
  exists m, p' = l ++ m /\ rest = m ++ r.
Proof.
  intros H Hlen. apply app_eq_app in H.
  destruct H as (m & [[Hl Hr] | [Hp Hrest]]).
  - assert (m = []).
    { apply len_zero_nil. rewrite Hl, len_app in Hlen.
      pose proof (len_nonneg m). lia. }
    subst m. rewrite app_nil_r in Hl. cbn [app] in Hr. subst.
    exists []. rewrite app_nil_r. auto.
  - exists m. auto.
Qed.

(** [bytes.TrimSpace] leaves exactly [null] if and only if the bytes are
    [null] between two runs of white space. *)
Theorem TrimSpace_null (data : list byte) :
  bytes.TrimSpace data = null_literal <-> padded_null data.
Proof.
  unfold bytes.TrimSpace. split.
  - intros H.
    pose proof (TrimSpace_start_spec (length data) data [] (Nat.le_refl _)) as Hs.
    cbn [app] in Hs. change (len []) with 0 in Hs.
    destruct (bytes.TrimSpace_start data 0) as [res|start].
    + destruct Hs as (l & rest & Hd & Hl & Hres). rewrite Hres in H. clear Hres.
      apply TrimFunc_null in H. destruct H as (l2 & r2 & Hl2 & Hr2 & ->).
      exists (l ++ l2), r2. rewrite Hd, <- app_assoc.
      repeat split; [apply white_space_run_app; assumption | assumption].
    + destruct Hs as (l & rest & Hd & Hl & Hstart).
      rewrite Z.add_0_l in Hstart. subst start.
      assert (Hlen : 0 <= len l <= len data)
        by (rewrite Hd, len_app; pose proof (len_nonneg l);
            pose proof (len_nonneg rest); lia).
      pose proof (TrimSpace_stop_spec (length data) data [] (len l)
                    (Nat.le_refl _) Hlen) as Hp.
      rewrite app_nil_r in Hp.
      destruct (bytes.TrimSpace_stop data (len l) (len data)) as [res|stop].
      * destruct Hp as (p' & r & Hd' & Hr & Hle & Hres). rewrite Hres in H. clear Hres.
        destruct (app_eq_app_prefix l rest p' r) as (m & -> & ->);
          [congruence | exact Hle |].
        rewrite slice_suffix in H. apply TrimFunc_null in H.
        destruct H as (l2 & r2 & Hl2 & Hr2 & ->).
        exists (l ++ l2), (r2 ++ r). rewrite Hd, <- !app_assoc.
        repeat split; apply white_space_run_app; assumption.
      * destruct Hp as (p' & r & Hd' & Hr & Hstop & Hle). subst stop.
        destruct (app_eq_app_prefix l rest p' r) as (m & -> & ->);
          [congruence | exact Hle |].
        destruct (len l =? len (l ++ m)); [discriminate H|].
        rewrite Hd, app_assoc in H.
        rewrite slice_app_l in H by (pose proof (len_nonneg l); lia).
        rewrite slice_suffix in H. subst m.
        exists l, r. rewrite Hd. auto.
  - intros (l & r & (cl & Hcl & ->) & (cr & Hcr & ->) & ->).
    pose proof (TrimSpace_start_run cl Hcl [] _ (ex_intro _ cr (conj Hcr eq_refl)))
      as Hs.
    cbn [app] in Hs. change (len []) with 0 in Hs.
    destruct Hs as [Hs | Hs]; rewrite Hs; [reflexivity|].
    rewrite Z.add_0_l.
    pose proof (TrimSpace_stop_run cr Hcr (flat_map utf8_encode cl) []) as Hp.
    rewrite app_nil_r in Hp.
    destruct Hp as [Hp | Hp]; rewrite Hp; [reflexivity|].
    set (l := flat_map utf8_encode cl). pose proof (len_nonneg l).
    destruct (len l =? len l + 4) eqn:E; [apply Z.eqb_eq in E; lia|].
    rewrite app_assoc. change 4 with (len null_literal). rewrite <- len_app.
    rewrite slice_app_l by lia. apply slice_suffix.
Qed.

(** JSON white space is white space for [bytes.TrimSpace] too. *)
Lemma json_padded_null_padded (data : list byte) :
  json_padded_null data -> padded_null data.
Proof.
  assert (Hrun : forall l, Forall json_space l -> white_space_run l).
  { induction 1 as [|b l Hb _ IH]; [apply white_space_run_nil|].
    change (b :: l) with ([b] ++ l).
    destruct Hb as [-> | [-> | [-> | ->]]];
      [ apply (white_space_run_cons 0x20) | apply (white_space_run_cons 0x09)
      | apply (white_space_run_cons 0x0A) | apply (white_space_run_cons 0x0D) ];
      solve [exact IH | cbn; tauto]. }
  intros (l & r & Hl & Hr & ->). exists l, r. auto.
Qed.


(** Case analysis on an equation [H] that fixes the outcome of a [Scan]:
    one case per path through the method. *)
Ltac scan_paths H :=
  unfold Value.Scan, Nullable.Scan, bind, ret in H;
  repeat match type of H with
         | context [match ?f ?data ?v with _ => _ end] =>
             destruct (f data v) as [? [?|]] eqn:?
         | context [match ?x with _ => _ end] => destruct x eqn:?
         end;
  inversion H; subst; clear H.

Section Wrappers.
Context {T E : Type}.
Variable zero : T.
Variable json_Marshal : T -> list byte * option E.
Variable json_Unmarshal : list byte -> T -> T * option E.

(** The three typed sources run the same statements on their content. *)
Lemma Value_Scan_content (v : Value.t T) (src : any) (data : list byte) :
  content src = Some data ->
  Value.Scan json_Unmarshal v src = Value.Scan json_Unmarshal v (bytes_ data).
Proof. destruct src; cbn; intros [= <-]; reflexivity. Qed.

Lemma Nullable_Scan_content (n : Nullable.t T) (src : any) (data : list byte) :
  content src = Some data ->
  Nullable.Scan zero json_Unmarshal n src = Nullable.Scan zero json_Unmarshal n (bytes_ data).
Proof.
  destruct src; cbn [content]; intros [= <-]; try reflexivity.
  unfold Nullable.Scan, len. rewrite length_list_byte_of_string. reflexivity.
Qed.

(** C4.  [Value.Scan] of the nil source, or of a bytes, string or
    [json.RawMessage] source whose content is [null] once
    [bytes.TrimSpace] has trimmed it, returns [ErrNullNotAllowed]; it
    leaves the box as it was and does not consult the decoder, so the
    error is never a wrapped decode error.  By [TrimSpace_null] and
    [json_padded_null_padded] that holds in particular for [null] between
    spaces, tabs, newlines and carriage returns. *)
Theorem Value_Scan_null (v : Value.t T) (src : any) :
  src = nil_ \/
  (exists data, content src = Some data /\
                bytes.TrimSpace data = null_literal) ->
  Value.Scan json_Unmarshal v src = ((v, Some ErrNullNotAllowed), []).
Proof.
  intros [-> | (data & Hc & Hnull)]; [reflexivity|].
  rewrite (Value_Scan_content _ _ _ Hc). unfold Value.Scan.
  rewrite Hnull. reflexivity.
Qed.

(** C3.  [Nullable.Scan] of the nil source, of an empty bytes, string or
    [json.RawMessage] source, or of one whose content is [null] once
    trimmed (so [null] between spaces, tabs, newlines and carriage returns,
    by [TrimSpace_null] and [json_padded_null_padded]), succeeds with
    [Valid = false] and [V] the zero value of [T], whatever the box held,
    and without consulting the decoder. *)
Theorem Nullable_Scan_null (n : Nullable.t T) (src : any) :
  src = nil_ \/
  content src = Some [] \/
  (exists data, content src = Some data /\
                bytes.TrimSpace data = null_literal) ->
  Nullable.Scan zero json_Unmarshal n src
  = (({| Nullable.V := zero; Nullable.Valid := false |}, None), []).
Proof.
  intros [-> | [Hc | (data & Hc & Hnull)]]; [reflexivity| |];
    rewrite (Nullable_Scan_content _ _ _ Hc); unfold Nullable.Scan.
  - reflexivity.
  - rewrite Hnull. destruct (len data =? 0); reflexivity.
Qed.

(** C5.  [Nullable.Value] of a box with [Valid = false] returns the nil
    [driver.Value] and the nil error, and makes no call to the encoder:
    whatever [json.Marshal] would do with [n.V], it is not asked. *)
Theorem Nullable_Value_invalid (n : Nullable.t T) :
  Nullable.Valid n = false ->
  Nullable.Value json_Marshal n = ((nil_, None), []).
Proof. intros H. unfold Nullable.Value. rewrite H. reflexivity. Qed.

(** The invariant of [Nullable]: a box that is not valid holds the zero
    value. *)
Definition Nullable_invariant (n : Nullable.t T) : Prop :=
  Nullable.Valid n = false -> Nullable.V n = zero.

(** C7.  Every box made by [NewNullable], [NullableFrom], [Null] or
    [NullableFromPtr], and every box left by a [Scan] that returned the
    nil error (from whatever box it started), satisfies the invariant. *)
Theorem Nullable_invariant_holds :
  (forall v valid, Nullable_invariant (Nullable.NewNullable zero v valid)) /\
  (forall v, Nullable_invariant (Nullable.NullableFrom v)) /\
  Nullable_invariant (Nullable.Null zero) /\
  (forall ptr, Nullable_invariant (Nullable.NullableFromPtr zero ptr)) /\
  (forall n src n' calls,
      Nullable.Scan zero json_Unmarshal n src = ((n', None), calls) ->
      Nullable_invariant n').
Proof.
  unfold Nullable_invariant. split; [|split; [|split; [|split]]].
  - intros v [|]; cbn; congruence.
  - cbn; congruence.
  - reflexivity.
  - intros [v|]; cbn; congruence.
  - intros n src n' calls H.
    scan_paths H; cbn; congruence.
Qed.

(** C8.  When [Value.Scan] returns [ErrNullNotAllowed] or the
    unsupported-type error, the box is what it was before the call, and
    so is a [Nullable] box, [V] and [Valid], when [Nullable.Scan] returns
    the unsupported-type error; in both cases the decoder was not
    consulted. *)
Theorem Scan_precheck_frame :
  (forall (v v' : Value.t T) src err calls,
      Value.Scan json_Unmarshal v src = ((v', Some err), calls) ->
      err = ErrNullNotAllowed \/
      (exists method type_name, err = unsupported_type method type_name) ->
      v' = v /\ calls = []) /\
  (forall (n n' : Nullable.t T) src method type_name calls,
      Nullable.Scan zero json_Unmarshal n src
      = ((n', Some (unsupported_type method type_name)), calls) ->
      n' = n /\ calls = []).
Proof.
  split.
  - intros v v' src err calls H Herr.
    scan_paths H; auto;
      destruct Herr as [Herr | (m & tn & Herr)]; discriminate.
  - intros n n' src method type_name calls H.
    scan_paths H; auto.
Qed.

(** C9.  [Value.Scan] has no case for an empty source: given an empty
    bytes, string or [json.RawMessage] source it calls the decoder on the
    empty content, once, and returns what the decoder made of [V] together
    with the decoder's error, wrapped.  [encoding/json] rejects the empty
    input, so that error is a wrapped decode error; [ErrNullNotAllowed] is
    not returned whatever the decoder answers. *)
Theorem Value_Scan_empty (v : Value.t T) (src : any) (V' : T) (err : option E) :
  content src = Some [] ->
  json_Unmarshal [] (Value.V v) = (V', err) ->
  Value.Scan json_Unmarshal v src
  = (({| Value.V := V' |}, option_map (wrapped "jsonsql.Value.Scan") err),
     [Unmarshal_call [] (Value.V v)]) /\
  option_map (wrapped "jsonsql.Value.Scan") err <> Some ErrNullNotAllowed.
Proof.
  intros Hc Hu. rewrite (Value_Scan_content _ _ _ Hc).
  unfold Value.Scan, bind, ret. rewrite TrimSpace_nil, Hu.
  destruct err; split; try reflexivity; discriminate.
Qed.

(** C10.  When [Nullable.Scan] returns a wrapped decode error, [Valid] is
    what it was before the call. *)
Theorem Nullable_Scan_decode_error_Valid
    (n n' : Nullable.t T) (src : any) method (err : E) calls :
  Nullable.Scan zero json_Unmarshal n src = ((n', Some (wrapped method err)), calls) ->
  Nullable.Valid n' = Nullable.Valid n.
Proof.
  intros H. scan_paths H; reflexivity.
Qed.

(** C1, as the code has it.  When [json.Marshal] encodes [v] as bytes that
    are not [null] once trimmed, and [json.Unmarshal] reads these bytes
    into a zero payload as [v] again, then [Value.Value] of the box of [v]
    yields the bytes, and [Value.Scan] of them into a fresh box succeeds
    and leaves the box of [v]. *)
Theorem Value_roundtrip (v : T) (data : list byte) :
  json_Marshal v = (data, None) ->
  bytes.TrimSpace data <> null_literal ->
  json_Unmarshal data zero = (v, None) ->
  Value.Value json_Marshal {| Value.V := v |}
  = ((bytes_ data, None), [Marshal_call v]) /\
  Value.Scan json_Unmarshal {| Value.V := zero |} (bytes_ data)
  = (({| Value.V := v |}, None), [Unmarshal_call data zero]).
Proof.
  intros Hm Hnull Hu. apply Equal_false_iff in Hnull.
  unfold Value.Value, Value.Scan, bind, ret. cbn [Value.V].
  rewrite Hm, Hnull, Hu. split; reflexivity.
Qed.

(** C2, as the code has it.  When [json.Marshal] encodes [v] as bytes that
    are not empty and not [null] once trimmed, and [json.Unmarshal] reads
    these bytes into a zero payload as [v] again, then [Nullable.Value] of
    [NullableFrom(v)] yields the bytes, and [Nullable.Scan] of them into a
    fresh box succeeds and leaves [NullableFrom(v)]. *)
Theorem Nullable_roundtrip (v : T) (data : list byte) :
  json_Marshal v = (data, None) ->
  data <> [] ->
  bytes.TrimSpace data <> null_literal ->
  json_Unmarshal data zero = (v, None) ->
  Nullable.Value json_Marshal (Nullable.NullableFrom v)
  = ((bytes_ data, None), [Marshal_call v]) /\
  Nullable.Scan zero json_Unmarshal (Nullable.Null zero) (bytes_ data)
  = ((Nullable.NullableFrom v, None), [Unmarshal_call data zero]).
Proof.
  intros Hm Hne Hnull Hu. apply Equal_false_iff in Hnull.
  unfold Nullable.Value, Nullable.Scan, Nullable.NullableFrom, Nullable.Null,
    bind, ret. cbn [Nullable.V Nullable.Valid negb].
  rewrite Hm, Hnull, Hu.
  destruct data as [|b data]; [congruence|]. split; reflexivity.
Qed.

(** C6, as the code has it.  For a bytes, string or [json.RawMessage]
    source that is not empty, [Value.Scan] and [Nullable.Scan] take the
    path of the null literal ([Value.Scan] returns [ErrNullNotAllowed],
    [Nullable.Scan] sets the box to not valid and zero, neither asks the
    decoder) if and only if the content is [null] between two runs, each
    possibly empty, of UTF-8 encoded White_Space code points: tab, newline,
    vertical tab, form feed, carriage return, space, U+0085, U+00A0,
    U+1680, U+2000 to U+200A, U+2028, U+2029, U+202F, U+205F, U+3000. *)
Theorem null_literal_classification
    (v : Value.t T) (n : Nullable.t T) (src : any) (data : list byte) :
  content src = Some data ->
  data <> [] ->
  (Value.Scan json_Unmarshal v src = ((v, Some ErrNullNotAllowed), [])
   <-> padded_null data) /\
  (Nullable.Scan zero json_Unmarshal n src
   = (({| Nullable.V := zero; Nullable.Valid := false |}, None), [])
   <-> padded_null data).
Proof.
  intros Hc Hne. rewrite <- TrimSpace_null.
  rewrite (Value_Scan_content _ _ _ Hc), (Nullable_Scan_content _ _ _ Hc).
  assert (Hlen : (len data =? 0) = false).
  { apply Z.eqb_neq. intros H. apply len_zero_nil in H. contradiction. }
  unfold Value.Scan, Nullable.Scan, bind, ret. rewrite Hlen.
  destruct (bytes.Equal (bytes.TrimSpace data) null_literal) eqn:Heq.
  - apply Equal_true_iff in Heq. split; split; auto.
  - apply Equal_false_iff in Heq.
    split; split; try contradiction;
      destruct (json_Unmarshal data _) as [V' [err|]]; discriminate.
Qed.

End Wrappers.

(** *** The claims at concrete payloads

    [bool] with the codec of [encoding/json], [*bool] with its encoder, and
    the tests' [unmarshalableType], which the encoder rejects. *)

(** C1 fails for a nil [*bool]: [json.Marshal] encodes it as [null], and
    [Value.Scan] answers these bytes with [ErrNullNotAllowed] before any
    decoder is asked, so whatever [json.Unmarshal] does. *)
Lemma Value_roundtrip_nil_pointer :
  Value.Value json.Marshal_ptr_bool {| Value.V := None |}
  = ((bytes_ null_literal, None), [Marshal_call None]) /\
  forall json_Unmarshal : list byte -> option bool -> option bool * option json.error_,
    Value.Scan json_Unmarshal {| Value.V := None |} (bytes_ null_literal)
    = (({| Value.V := None |}, Some ErrNullNotAllowed), []).
Proof. split; [reflexivity | intros u; reflexivity]. Qed.

(** C2 fails for a nil [*bool]: [NullableFrom(nil)] is valid, its encoding
    is [null], and [Nullable.Scan] turns these bytes into the box that is
    not valid, again without asking the decoder. *)
Lemma Nullable_roundtrip_nil_pointer :
  Nullable.Value json.Marshal_ptr_bool (Nullable.NullableFrom None)
  = ((bytes_ null_literal, None), [Marshal_call None]) /\
  Nullable.Valid (Nullable.NullableFrom (@None bool)) = true /\
  forall json_Unmarshal : list byte -> option bool -> option bool * option json.error_,
    Nullable.Scan None json_Unmarshal (Nullable.Null None) (bytes_ null_literal)
    = (({| Nullable.V := None; Nullable.Valid := false |}, None), []).
Proof. split; [reflexivity | split; [reflexivity | intros u; reflexivity]]. Qed.

(** [Value_roundtrip] at [true]. *)
Lemma Value_roundtrip_witness :
  json.Marshal_bool true = (list_byte_of_string "true", None) /\
  bytes.TrimSpace (list_byte_of_string "true") <> null_literal /\
  json.Unmarshal_bool (list_byte_of_string "true") false = (true, None) /\
  Value.Value json.Marshal_bool {| Value.V := true |}
  = ((bytes_ (list_byte_of_string "true"), None), [Marshal_call true]) /\
  Value.Scan json.Unmarshal_bool {| Value.V := false |}
    (bytes_ (list_byte_of_string "true"))
  = (({| Value.V := true |}, None),
     [Unmarshal_call (list_byte_of_string "true") false]).
Proof.
  assert (H1 : json.Marshal_bool true = (list_byte_of_string "true", None))
    by reflexivity.
  assert (H2 : bytes.TrimSpace (list_byte_of_string "true") <> null_literal)
    by (vm_compute; discriminate).
  assert (H3 : json.Unmarshal_bool (list_byte_of_string "true") false = (true, None))
    by reflexivity.
  split; [exact H1 | split; [exact H2 | split; [exact H3 |]]].
  exact (Value_roundtrip false json.Marshal_bool json.Unmarshal_bool true _ H1 H2 H3).
Defined.

(** [Nullable_roundtrip] at [false]. *)
Lemma Nullable_roundtrip_witness :
  json.Marshal_bool false = (list_byte_of_string "false", None) /\
  list_byte_of_string "false" <> [] /\
  bytes.TrimSpace (list_byte_of_string "false") <> null_literal /\
  json.Unmarshal_bool (list_byte_of_string "false") false = (false, None) /\
  Nullable.Value json.Marshal_bool (Nullable.NullableFrom false)
  = ((bytes_ (list_byte_of_string "false"), None), [Marshal_call false]) /\
  Nullable.Scan false json.Unmarshal_bool (Nullable.Null false)
    (bytes_ (list_byte_of_string "false"))
  = ((Nullable.NullableFrom false, None),
     [Unmarshal_call (list_byte_of_string "false") false]).
Proof.
  assert (H1 : json.Marshal_bool false = (list_byte_of_string "false", None))
    by reflexivity.
  assert (H0 : list_byte_of_string "false" <> []) by (vm_compute; discriminate).
  assert (H2 : bytes.TrimSpace (list_byte_of_string "false") <> null_literal)
    by (vm_compute; discriminate).
  assert (H3 : json.Unmarshal_bool (list_byte_of_string "false") false = (false, None))
    by reflexivity.
  split; [exact H1 | split; [exact H0 | split; [exact H2 | split; [exact H3 |]]]].
  exact (Nullable_roundtrip false json.Marshal_bool json.Unmarshal_bool false _
           H1 H0 H2 H3).
Defined.

(** A newline, [null], a newline. *)
Definition newline_null_newline : list byte :=
  [x0a] ++ null_literal ++ [x0a].

(** [Value_Scan_null] at a string source that pads [null] with newlines. *)
Lemma Value_Scan_null_witness :
  (string_ (string_of_list_byte newline_null_newline) = nil_ \/
   exists data,
     content (string_ (string_of_list_byte newline_null_newline)) = Some data /\
     bytes.TrimSpace data = null_literal) /\
  Value.Scan json.Unmarshal_bool {| Value.V := true |}
    (string_ (string_of_list_byte newline_null_newline))
  = (({| Value.V := true |}, Some ErrNullNotAllowed), []).
Proof.
  assert (H : string_ (string_of_list_byte newline_null_newline) = nil_ \/
              exists data,
                content (string_ (string_of_list_byte newline_null_newline))
                = Some data /\
                bytes.TrimSpace data = null_literal)
    by (right; eexists; split; reflexivity).
  split; [exact H | exact (Value_Scan_null json.Unmarshal_bool _ _ H)].
Defined.

(** [Nullable_Scan_null] at an empty [json.RawMessage], into a box that
    held [true]. *)
Lemma Nullable_Scan_null_witness :
  (RawMessage [] = nil_ \/ content (RawMessage []) = Some [] \/
   exists data, content (RawMessage []) = Some data /\
                bytes.TrimSpace data = null_literal) /\
  Nullable.Scan false json.Unmarshal_bool
    {| Nullable.V := true; Nullable.Valid := true |} (RawMessage [])
  = (({| Nullable.V := false; Nullable.Valid := false |}, None), []).
Proof.
  assert (H : RawMessage [] = nil_ \/ content (RawMessage []) = Some [] \/
              exists data, content (RawMessage []) = Some data /\
                           bytes.TrimSpace data = null_literal)
    by (right; left; reflexivity).
  split; [exact H | exact (Nullable_Scan_null false json.Unmarshal_bool _ _ H)].
Defined.

(** [Nullable_Value_invalid] at a payload that [json.Marshal] rejects. *)
Lemma Nullable_Value_invalid_witness :
  Nullable.Valid {| Nullable.V := {| json.Ch := Some 0%nat |};
                    Nullable.Valid := false |} = false /\
  Nullable.Value json.Marshal_unmarshalableType
    {| Nullable.V := {| json.Ch := Some 0%nat |}; Nullable.Valid := false |}
  = ((nil_, None), []).
Proof.
  split; [reflexivity|].
  exact (Nullable_Value_invalid json.Marshal_unmarshalableType
           {| Nullable.V := {| json.Ch := Some 0%nat |}; Nullable.Valid := false |}
           eq_refl).
Defined.

(** [Nullable_invariant_holds] at the scan of [null] into a box that held
    [true]. *)
Lemma Nullable_invariant_holds_witness :
  Nullable.Scan false json.Unmarshal_bool
    {| Nullable.V := true; Nullable.Valid := true |} (bytes_ null_literal)
  = (({| Nullable.V := false; Nullable.Valid := false |}, None), []) /\
  Nullable_invariant false {| Nullable.V := false; Nullable.Valid := false |}.
Proof.
  assert (H : Nullable.Scan false json.Unmarshal_bool
                {| Nullable.V := true; Nullable.Valid := true |}
                (bytes_ null_literal)
              = (({| Nullable.V := false; Nullable.Valid := false |}, None), []))
    by reflexivity.
  split; [exact H|].
  exact (proj2 (proj2 (proj2 (proj2
           (Nullable_invariant_holds false json.Unmarshal_bool)))) _ _ _ _ H).
Defined.

(** [Scan_precheck_frame] at an integer source. *)
Lemma Scan_precheck_frame_witness :
  Value.Scan json.Unmarshal_bool {| Value.V := true |} (other "int")
  = (({| Value.V := true |}, Some (unsupported_type "jsonsql.Value.Scan" "int")), []) /\
  Nullable.Scan false json.Unmarshal_bool
    {| Nullable.V := true; Nullable.Valid := true |} (other "int")
  = (({| Nullable.V := true; Nullable.Valid := true |},
      Some (unsupported_type "jsonsql.Nullable.Scan" "int")), []) /\
  ({| Value.V := true |} = {| Value.V := true |} /\ @nil (codec_call bool) = []) /\
  ({| Nullable.V := true; Nullable.Valid := true |}
   = {| Nullable.V := true; Nullable.Valid := true |} /\
   @nil (codec_call bool) = []).
Proof.
  assert (H1 : Value.Scan json.Unmarshal_bool {| Value.V := true |} (other "int")
               = (({| Value.V := true |},
                   Some (unsupported_type "jsonsql.Value.Scan" "int")), []))
    by reflexivity.
  assert (H2 : Nullable.Scan false json.Unmarshal_bool
                 {| Nullable.V := true; Nullable.Valid := true |} (other "int")
               = (({| Nullable.V := true; Nullable.Valid := true |},
                   Some (unsupported_type "jsonsql.Nullable.Scan" "int")), []))
    by reflexivity.
  split; [exact H1 | split; [exact H2 | split]].
  - exact (proj1 (Scan_precheck_frame false json.Unmarshal_bool) _ _ _ _ _ H1
             (or_intror (ex_intro _ _ (ex_intro _ _ eq_refl)))).
  - exact (proj2 (Scan_precheck_frame false json.Unmarshal_bool) _ _ _ _ _ _ H2).
Defined.

(** [Value_Scan_empty] at an empty byte slice. *)
Lemma Value_Scan_empty_witness :
  content (bytes_ []) = Some [] /\
  json.Unmarshal_bool [] true = (true, Some json.DecodeError) /\
  Value.Scan json.Unmarshal_bool {| Value.V := true |} (bytes_ [])
  = (({| Value.V := true |},
      Some (wrapped "jsonsql.Value.Scan" json.DecodeError)),
     [Unmarshal_call [] true]) /\
  Some (wrapped "jsonsql.Value.Scan" json.DecodeError)
  <> Some (@ErrNullNotAllowed json.error_).
Proof.
  split; [reflexivity | split; [reflexivity|]].
  exact (Value_Scan_empty json.Unmarshal_bool {| Value.V := true |} (bytes_ [])
           true (Some json.DecodeError) eq_refl eq_refl).
Defined.

(** [{invalid json}] of the tests. *)
Definition invalid_json : list byte := list_byte_of_string "{invalid json}".

(** [Nullable_Scan_decode_error_Valid] at the scan of [invalid_json] into a
    valid box. *)
Lemma Nullable_Scan_decode_error_Valid_witness :
  Nullable.Scan false json.Unmarshal_bool
    {| Nullable.V := true; Nullable.Valid := true |} (bytes_ invalid_json)
  = (({| Nullable.V := true; Nullable.Valid := true |},
      Some (wrapped "jsonsql.Nullable.Scan" json.DecodeError)),
     [Unmarshal_call invalid_json true]) /\
  Nullable.Valid {| Nullable.V := true; Nullable.Valid := true |} = true.
Proof.
  assert (H : Nullable.Scan false json.Unmarshal_bool
                {| Nullable.V := true; Nullable.Valid := true |}
                (bytes_ invalid_json)
              = (({| Nullable.V := true; Nullable.Valid := true |},
                  Some (wrapped "jsonsql.Nullable.Scan" json.DecodeError)),
                 [Unmarshal_call invalid_json true]))
    by reflexivity.
  split; [exact H|].
  exact (Nullable_Scan_decode_error_Valid false json.Unmarshal_bool _ _ _ _ _ _ H).
Defined.

(** A vertical tab, then [null]. *)
Definition vertical_tab_null : list byte := [x0b] ++ null_literal.

(** C6 fails for a vertical tab before [null]: it is no JSON white space,
    yet both [Scan]s take the content for the null literal. *)
Lemma null_literal_classification_vertical_tab :
  ~ json_padded_null vertical_tab_null /\
  Value.Scan json.Unmarshal_bool {| Value.V := true |} (bytes_ vertical_tab_null)
  = (({| Value.V := true |}, Some ErrNullNotAllowed), []) /\
  Nullable.Scan false json.Unmarshal_bool
    {| Nullable.V := true; Nullable.Valid := true |} (bytes_ vertical_tab_null)
  = (({| Nullable.V := false; Nullable.Valid := false |}, None), []).
Proof.
  split; [|split; reflexivity].
  intros (l & r & Hl & _ & H). destruct l as [|b l].
  - discriminate H.
  - injection H as Hb _. apply Forall_inv in Hl. subst b.
    destruct Hl as [Hl | [Hl | [Hl | Hl]]]; discriminate Hl.
Qed.

(** [null_literal_classification] at a vertical tab before [null]. *)
Lemma null_literal_classification_witness :
  content (bytes_ vertical_tab_null) = Some vertical_tab_null /\
  vertical_tab_null <> [] /\
  (Value.Scan json.Unmarshal_bool {| Value.V := true |} (bytes_ vertical_tab_null)
   = (({| Value.V := true |}, Some ErrNullNotAllowed), [])
   <-> padded_null vertical_tab_null) /\
  (Nullable.Scan false json.Unmarshal_bool
     {| Nullable.V := true; Nullable.Valid := true |} (bytes_ vertical_tab_null)
   = (({| Nullable.V := false; Nullable.Valid := false |}, None), [])
   <-> padded_null vertical_tab_null).
Proof.
  assert (H1 : content (bytes_ vertical_tab_null) = Some vertical_tab_null)
    by reflexivity.
  assert (H2 : vertical_tab_null <> []) by (vm_compute; discriminate).
  split; [exact H1 | split; [exact H2|]].
  exact (null_literal_classification false json.Unmarshal_bool
           {| Value.V := true |}
           {| Nullable.V := true; Nullable.Valid := true |} _ _ H1 H2).
Defined.

(** ** Further properties of the wrappers *)

Section More.
Context {T E : Type}.
Variable zero : T.
Variable json_Marshal : T -> list byte * option E.
Variable json_Unmarshal : list byte -> T -> T * option E.

(** The test both [Scan]s make of the content. *)
Lemma null_test (data : list byte) :
  bytes.Equal (bytes.TrimSpace data) null_literal = true <-> padded_null data.
Proof. rewrite Equal_true_iff. apply TrimSpace_null. Qed.

Lemma null_test_false (data : list byte) :
  bytes.Equal (bytes.TrimSpace data) null_literal = false <-> ~ padded_null data.
Proof. rewrite Equal_false_iff, TrimSpace_null. reflexivity. Qed.

Lemma len_eqb_0 (data : list byte) : (len data =? 0) = false <-> data <> [].
Proof.
  rewrite Z.eqb_neq. split; intros H H'.
  - subst data. apply H. reflexivity.
  - apply H, len_zero_nil, H'.
Qed.

(** X1.  A box that is not valid goes through [Value] and [Scan] as the
    null box: what [Nullable.Value] returns for it, scanned into any box,
    leaves [Null], without a call to the codec; and that is the box one
    started from when it satisfied the invariant. *)
Theorem Nullable_null_roundtrip (n m : Nullable.t T) :
  Nullable.Valid n = false ->
  Nullable.Scan zero json_Unmarshal m
    (fst (fst (Nullable.Value json_Marshal n)))
  = ((Nullable.Null zero, None), []) /\
  snd (Nullable.Value json_Marshal n) = [] /\
  (Nullable_invariant zero n -> Nullable.Null zero = n).
Proof.
  intros H. unfold Nullable.Value. rewrite H. cbn [negb fst snd ret].
  repeat split. intros Hinv. specialize (Hinv H).
  destruct n as [V Valid]. cbn in *. subst. reflexivity.
Qed.

(** X2.  [ToPtr] undoes [NullableFromPtr]: the pointer one gets back is nil
    for nil, and points to an equal value otherwise. *)
Theorem ToPtr_NullableFromPtr (ptr : option T) :
  Nullable.ToPtr (Nullable.NullableFromPtr zero ptr) = ptr.
Proof. destruct ptr; reflexivity. Qed.


(** X4.  [Value.Scan] of content that is not [null] between white space
    hands the content to the decoder as it is, untrimmed, once, and returns
    the decoder's outcome: what it made of [V], and its error wrapped under
    the method's name, or the nil error. *)
Theorem Value_Scan_delegates
    (v : Value.t T) (src : any) (data : list byte) (V' : T) (err : option E) :
  content src = Some data ->
  ~ padded_null data ->
  json_Unmarshal data (Value.V v) = (V', err) ->
  Value.Scan json_Unmarshal v src
  = (({| Value.V := V' |}, option_map (wrapped "jsonsql.Value.Scan") err),
     [Unmarshal_call data (Value.V v)]).
Proof.
  intros Hc Hn Hu. apply null_test_false in Hn.
  rewrite (Value_Scan_content json_Unmarshal _ _ _ Hc). unfold Value.Scan, bind, ret.
  rewrite Hn, Hu. destruct err; reflexivity.
Qed.

(** X5.  [Nullable.Scan] of content that is not empty and not [null]
    between white space hands the content to the decoder as it is, once;
    when the decoder succeeds the box is valid and holds what the decoder
    made of [V], and when it fails the error comes back wrapped, [V] is
    what the decoder left and [Valid] is what it was. *)
Theorem Nullable_Scan_delegates
    (n : Nullable.t T) (src : any) (data : list byte) (V' : T) (err : option E) :
  content src = Some data ->
  data <> [] ->
  ~ padded_null data ->
  json_Unmarshal data (Nullable.V n) = (V', err) ->
  Nullable.Scan zero json_Unmarshal n src
  = (({| Nullable.V := V';
         Nullable.Valid := match err with
                           | None => true
                           | Some _ => Nullable.Valid n
                           end |},
      option_map (wrapped "jsonsql.Nullable.Scan") err),
     [Unmarshal_call data (Nullable.V n)]).
Proof.
  intros Hc Hne Hn Hu. apply null_test_false in Hn. apply len_eqb_0 in Hne.
  rewrite (Nullable_Scan_content zero json_Unmarshal _ _ _ Hc).
  unfold Nullable.Scan, bind, ret.
  rewrite Hne, Hn, Hu. destruct err; reflexivity.
Qed.

(** X6.  Either [Scan] returns the unsupported-type error exactly for a
    source that is neither nil nor of one of the three types of the type
    switch, and the error then names the method and the type of the
    source. *)
Theorem Scan_unsupported_type_iff (src : any) (type_name : string) :
  (forall v : Value.t T,
     (exists v' method calls,
         Value.Scan json_Unmarshal v src
         = ((v', Some (unsupported_type method type_name)), calls))
     <-> src = other type_name) /\
  (forall n : Nullable.t T,
     (exists n' method calls,
         Nullable.Scan zero json_Unmarshal n src
         = ((n', Some (unsupported_type method type_name)), calls))
     <-> src = other type_name) /\
  (forall (v : Value.t T) (n : Nullable.t T),
      Value.Scan json_Unmarshal v (other type_name)
      = ((v, Some (unsupported_type "jsonsql.Value.Scan" type_name)), []) /\
      Nullable.Scan zero json_Unmarshal n (other type_name)
      = ((n, Some (unsupported_type "jsonsql.Nullable.Scan" type_name)), [])).
Proof.
  split; [|split].
  - intros v. split.
    + intros (v' & method & calls & H). scan_paths H. reflexivity.
    + intros ->. eexists; eexists; eexists. reflexivity.
  - intros n. split.
    + intros (n' & method & calls & H). scan_paths H. reflexivity.
    + intros ->. eexists; eexists; eexists. reflexivity.
  - intros v n. split; reflexivity.
Qed.

(** X7.  [Nullable.Scan] never returns [ErrNullNotAllowed]: its errors are
    the unsupported-type error and the wrapped errors of the decoder. *)
Theorem Nullable_Scan_errors (n : Nullable.t T) (src : any) :
  snd (fst (Nullable.Scan zero json_Unmarshal n src)) <> Some ErrNullNotAllowed /\
  (forall err,
      snd (fst (Nullable.Scan zero json_Unmarshal n src)) = Some err ->
      (exists type_name,
          err = unsupported_type "jsonsql.Nullable.Scan" type_name) \/
      (exists cause, err = wrapped "jsonsql.Nullable.Scan" cause)).
Proof.
  destruct (Nullable.Scan zero json_Unmarshal n src) as [[n' e] calls] eqn:H.
  cbn [fst snd]. split.
  - intros ->. scan_paths H.
  - intros err ->. scan_paths H; eauto.
Qed.

(** X8.  A [Scan] looks at the bytes of its source only: a [[]byte], a
    [string] and a [json.RawMessage] with the same content give the same
    outcome, with either wrapper. *)
Theorem Scan_source_type_irrelevant
    (v : Value.t T) (n : Nullable.t T) (src1 src2 : any) (data : list byte) :
  content src1 = Some data ->
  content src2 = Some data ->
  Value.Scan json_Unmarshal v src1 = Value.Scan json_Unmarshal v src2 /\
  Nullable.Scan zero json_Unmarshal n src1
  = Nullable.Scan zero json_Unmarshal n src2.
Proof.
  intros H1 H2.
  rewrite (Value_Scan_content json_Unmarshal _ _ _ H1), (Value_Scan_content json_Unmarshal _ _ _ H2).
  rewrite (Nullable_Scan_content zero json_Unmarshal _ _ _ H1),
    (Nullable_Scan_content zero json_Unmarshal _ _ _ H2).
  split; reflexivity.
Qed.

(** X9.  [null] between any number of spaces, tabs, newlines and carriage
    returns, on either side, is the null literal for both wrappers:
    [Value.Scan] refuses it with [ErrNullNotAllowed], [Nullable.Scan] sets
    the box to [Null], and neither asks the decoder. *)
Theorem Scan_json_padded_null
    (v : Value.t T) (n : Nullable.t T) (src : any) (data : list byte) :
  content src = Some data ->
  json_padded_null data ->
  Value.Scan json_Unmarshal v src = ((v, Some ErrNullNotAllowed), []) /\
  Nullable.Scan zero json_Unmarshal n src = ((Nullable.Null zero, None), []).
Proof.
  intros Hc Hp. apply json_padded_null_padded, null_test in Hp.
  rewrite (Value_Scan_content json_Unmarshal _ _ _ Hc), (Nullable_Scan_content zero json_Unmarshal _ _ _ Hc).
  unfold Value.Scan, Nullable.Scan. rewrite Hp.
  split; [reflexivity | destruct (len data =? 0); reflexivity].
Qed.

(** X10.  After a [Nullable.Scan] that returned the nil error, [Get]
    reports the box valid exactly when the decoder was consulted; and when
    it reports the box not valid, the value it returns is the zero
    value. *)
Theorem Nullable_Scan_Get (n n' : Nullable.t T) (src : any) calls :
  Nullable.Scan zero json_Unmarshal n src = ((n', None), calls) ->
  (snd (Nullable.Get n') = true <-> calls <> []) /\
  (snd (Nullable.Get n') = false -> fst (Nullable.Get n') = zero).
Proof.
  intros H.
  scan_paths H; cbn;
    (split;
     [split; intros H0; try reflexivity; try discriminate;
      exfalso; apply H0; reflexivity
     |intros H0; try reflexivity; discriminate]).
Qed.

(** X11.  [Nullable.Value] returns the nil value together with the nil
    error for the boxes that are not valid, and for no other box. *)
Theorem Nullable_Value_nil_iff (n : Nullable.t T) :
  fst (Nullable.Value json_Marshal n) = (nil_, None)
  <-> Nullable.Valid n = false.
Proof.
  unfold Nullable.Value, bind, ret.
  destruct (Nullable.Valid n); cbn [negb].
  - destruct (json_Marshal (Nullable.V n)) as [data [err|]]; cbn;
      split; discriminate.
  - cbn. split; reflexivity.
Qed.

(** X12.  A valid [Nullable] box is encoded as the [Value] box of the same
    payload: the same call to the encoder, the same bytes when it succeeds,
    and when it fails the same cause, wrapped under each method's own
    name. *)
Theorem Nullable_Value_valid (n : Nullable.t T) :
  Nullable.Valid n = true ->
  match json_Marshal (Nullable.V n) with
  | (data, None) =>
      Nullable.Value json_Marshal n
      = ((bytes_ data, None), [Marshal_call (Nullable.V n)]) /\
      Value.Value json_Marshal {| Value.V := Nullable.V n |}
      = ((bytes_ data, None), [Marshal_call (Nullable.V n)])
  | (_, Some err) =>
      Nullable.Value json_Marshal n
      = ((nil_, Some (wrapped "jsonsql.Nullable.Value" err)),
         [Marshal_call (Nullable.V n)]) /\
      Value.Value json_Marshal {| Value.V := Nullable.V n |}
      = ((nil_, Some (wrapped "jsonsql.Value.Value" err)),
         [Marshal_call (Nullable.V n)])
  end.
Proof.
  intros H. unfold Nullable.Value, Value.Value, bind, ret. rewrite H.
  cbn [negb Value.V].
  destruct (json_Marshal (Nullable.V n)) as [data [err|]]; split; reflexivity.
Qed.

(** X13.  [Value.Value] has no path that yields the nil value without an
    error: it asks the encoder once, and returns the bytes with the nil
    error or the nil value with the encoder's error wrapped. *)
Theorem Value_Value_outcome (v : Value.t T) :
  fst (Value.Value json_Marshal v) <> (nil_, None) /\
  snd (Value.Value json_Marshal v) = [Marshal_call (Value.V v)] /\
  ((exists data, fst (Value.Value json_Marshal v) = (bytes_ data, None) /\
                 json_Marshal (Value.V v) = (data, None)) \/
   (exists data err,
       fst (Value.Value json_Marshal v)
       = (nil_, Some (wrapped "jsonsql.Value.Value" err)) /\
       json_Marshal (Value.V v) = (data, Some err))).
Proof.
  unfold Value.Value, bind, ret.
  destruct (json_Marshal (Value.V v)) as [data [err|]]; cbn.
  - split; [discriminate | split; [reflexivity | right; eauto]].
  - split; [discriminate | split; [reflexivity | left; eauto]].
Qed.

(** X14.  What [Value.Scan] decodes with success from a source that is not
    empty, [Nullable.Scan] decodes to the same payload, in a valid box and
    with the same call to the decoder. *)
Theorem Nullable_Scan_agrees_with_Value_Scan
    (n : Nullable.t T) (src : any) (data : list byte) (V' : T) calls :
  content src = Some data ->
  data <> [] ->
  Value.Scan json_Unmarshal {| Value.V := Nullable.V n |} src
  = (({| Value.V := V' |}, None), calls) ->
  Nullable.Scan zero json_Unmarshal n src
  = (({| Nullable.V := V'; Nullable.Valid := true |}, None), calls).
Proof.
  intros Hc Hne H. apply len_eqb_0 in Hne.
  rewrite (Value_Scan_content json_Unmarshal _ _ _ Hc) in H.
  rewrite (Nullable_Scan_content zero json_Unmarshal _ _ _ Hc).
  unfold Value.Scan, Nullable.Scan, bind, ret in *. rewrite Hne.
  cbn [Value.V] in H.
  destruct (bytes.Equal (bytes.TrimSpace data) null_literal); [discriminate H|].
  destruct (json_Unmarshal data (Nullable.V n)) as [V'' [e|]];
    [discriminate H|].
  injection H as -> <-. reflexivity.
Qed.

(** X15.  A [Scan] consults the codec at most once, and then the decoder,
    on the content of the source as it came and on the payload the box
    holds; it never asks the encoder. *)
Theorem Scan_calls (v : Value.t T) (n : Nullable.t T) (src : any) :
  (snd (Value.Scan json_Unmarshal v src) = [] \/
   exists data, content src = Some data /\
                snd (Value.Scan json_Unmarshal v src)
                = [Unmarshal_call data (Value.V v)]) /\
  (snd (Nullable.Scan zero json_Unmarshal n src) = [] \/
   exists data, content src = Some data /\
                snd (Nullable.Scan zero json_Unmarshal n src)
                = [Unmarshal_call data (Nullable.V n)]).
Proof.
  unfold Value.Scan, Nullable.Scan, bind, ret.
  split; destruct src as [|s|s|s|tn]; cbn [content];
    repeat match goal with
           | |- context [if ?c then _ else _] => destruct c
           end;
    try (left; reflexivity);
    right; eexists; (split; [reflexivity|]);
    match goal with
    | |- context [json_Unmarshal ?d ?x] =>
        destruct (json_Unmarshal d x) as [? [?|]]
    end; reflexivity.
Qed.

(** X16.  [Value.Scan] returns [ErrNullNotAllowed] for the nil source and
    for content that is [null] between runs of white space, and for no
    other source: whatever the decoder answers, its errors come back
    wrapped. *)
Theorem Value_Scan_ErrNullNotAllowed_iff (v : Value.t T) (src : any) :
  snd (fst (Value.Scan json_Unmarshal v src)) = Some ErrNullNotAllowed
  <-> src = nil_ \/
      exists data, content src = Some data /\ padded_null data.
Proof.
  destruct (content src) as [data|] eqn:Hc.
  - rewrite (Value_Scan_content json_Unmarshal _ _ _ Hc).
    unfold Value.Scan, bind, ret.
    destruct (bytes.Equal (bytes.TrimSpace data) null_literal) eqn:Hn.
    + apply null_test in Hn. split; [|reflexivity].
      intros _. right. exists data. split; [reflexivity | exact Hn].
    + apply null_test_false in Hn. split.
      * destruct (json_Unmarshal data (Value.V v)) as [V' [e|]]; discriminate.
      * intros [-> | (data' & [= <-] & Hp)]; [discriminate Hc | contradiction].
  - destruct src; try discriminate Hc; cbn; split.
    + left; reflexivity.
    + reflexivity.
    + discriminate.
    + intros [H | (data & H & _)]; discriminate H.
Qed.

(** X17.  After a [Nullable.Scan] that returned the nil error the box is
    not valid exactly when the source was nil, or its content empty, or
    [null] between runs of white space. *)
Theorem Nullable_Scan_Valid_iff
    (n n' : Nullable.t T) (src : any) calls :
  Nullable.Scan zero json_Unmarshal n src = ((n', None), calls) ->
  Nullable.Valid n' = false
  <-> src = nil_ \/
      exists data, content src = Some data /\ (data = [] \/ padded_null data).
Proof.
  intros H. destruct (content src) as [data|] eqn:Hc.
  - rewrite (Nullable_Scan_content zero json_Unmarshal _ _ _ Hc) in H.
    unfold Nullable.Scan, bind, ret in H.
    destruct (len data =? 0) eqn:Hl.
    + injection H as <- _. apply Z.eqb_eq, len_zero_nil in Hl.
      split; [|reflexivity]. intros _. right. exists data. auto.
    + apply len_eqb_0 in Hl.
      destruct (bytes.Equal (bytes.TrimSpace data) null_literal) eqn:Hn.
      * injection H as <- _. apply null_test in Hn.
        split; [|reflexivity]. intros _. right. exists data. auto.
      * apply null_test_false in Hn.
        destruct (json_Unmarshal data (Nullable.V n)) as [V' [e|]];
          [discriminate H|].
        injection H as <- _. cbn. split; [discriminate|].
        intros [-> | (data' & [= <-] & [He | Hp])];
          [discriminate Hc | contradiction | contradiction].
  - destruct src; try discriminate Hc; cbn in H.
    + injection H as <- _. split; [left|]; reflexivity.
    + discriminate H.
Qed.

(** X18.  [Get] and [NewNullable]: the box made from a value and a flag
    gives back the flag, and the value or, when the flag is false, the zero
    value; and a box is the one made from what [Get] returns exactly when
    it satisfies the invariant. *)
Theorem NewNullable_Get :
  (forall (v : T) (valid : bool),
      Nullable.Get (Nullable.NewNullable zero v valid)
      = ((if valid then v else zero), valid)) /\
  (forall n : Nullable.t T,
      Nullable.NewNullable zero (fst (Nullable.Get n)) (snd (Nullable.Get n)) = n
      <-> Nullable_invariant zero n).
Proof.
  split.
  - intros v [|]; reflexivity.
  - intros [V [|]]; unfold Nullable_invariant; cbn.
    + split; [discriminate | reflexivity].
    + unfold Nullable.Null. split.
      * intros [= <-] _. reflexivity.
      * intros H. rewrite (H eq_refl). reflexivity.
Qed.

End More.

(** *** The further properties at concrete payloads *)

(** [Nullable_null_roundtrip] at [Null], scanned into a box that held
    [true]. *)
Lemma Nullable_null_roundtrip_witness :
  Nullable.Valid (Nullable.Null false) = false /\
  Nullable.Scan false json.Unmarshal_bool
    {| Nullable.V := true; Nullable.Valid := true |}
    (fst (fst (Nullable.Value json.Marshal_bool (Nullable.Null false))))
  = ((Nullable.Null false, None), []) /\
  snd (Nullable.Value json.Marshal_bool (Nullable.Null false)) = [] /\
  (Nullable_invariant false (Nullable.Null false) ->
   Nullable.Null false = Nullable.Null false).
Proof.
  split; [reflexivity|].
  exact (Nullable_null_roundtrip false json.Marshal_bool json.Unmarshal_bool
           (Nullable.Null false)
           {| Nullable.V := true; Nullable.Valid := true |} eq_refl).
Defined.

(** [true] between two spaces. *)
Definition spaced_true : list byte := list_byte_of_string " true ".

(** [Value_Scan_delegates] at [spaced_true]: the decoder gets the spaces
    too. *)
Lemma Value_Scan_delegates_witness :
  content (string_ " true ") = Some spaced_true /\
  ~ padded_null spaced_true /\
  json.Unmarshal_bool spaced_true false = (true, None) /\
  Value.Scan json.Unmarshal_bool {| Value.V := false |} (string_ " true ")
  = (({| Value.V := true |}, None), [Unmarshal_call spaced_true false]).
Proof.
  assert (H1 : content (string_ " true ") = Some spaced_true) by reflexivity.
  assert (H2 : ~ padded_null spaced_true)
    by (apply null_test_false; vm_compute; reflexivity).
  assert (H3 : json.Unmarshal_bool spaced_true false = (true, None))
    by reflexivity.
  split; [exact H1 | split; [exact H2 | split; [exact H3|]]].
  exact (Value_Scan_delegates json.Unmarshal_bool {| Value.V := false |}
           (string_ " true ") spaced_true true None H1 H2 H3).
Defined.

(** [Nullable_Scan_delegates] at a single space, which is not empty and is
    not the null literal: the decoder is asked, and refuses it. *)
Lemma Nullable_Scan_delegates_witness :
  content (bytes_ [x20]) = Some [x20] /\
  [x20] <> [] /\
  ~ padded_null [x20] /\
  json.Unmarshal_bool [x20] true = (true, Some json.DecodeError) /\
  Nullable.Scan false json.Unmarshal_bool
    {| Nullable.V := true; Nullable.Valid := true |} (bytes_ [x20])
  = (({| Nullable.V := true; Nullable.Valid := true |},
      Some (wrapped "jsonsql.Nullable.Scan" json.DecodeError)),
     [Unmarshal_call [x20] true]).
Proof.
  assert (H1 : content (bytes_ [x20]) = Some [x20]) by reflexivity.
  assert (H0 : [x20] <> []) by discriminate.
  assert (H2 : ~ padded_null [x20])
    by (apply null_test_false; vm_compute; reflexivity).
  assert (H3 : json.Unmarshal_bool [x20] true = (true, Some json.DecodeError))
    by reflexivity.
  split; [exact H1 | split; [exact H0 | split; [exact H2 | split; [exact H3|]]]].
  exact (Nullable_Scan_delegates false json.Unmarshal_bool
           {| Nullable.V := true; Nullable.Valid := true |}
           (bytes_ [x20]) [x20] true (Some json.DecodeError) H1 H0 H2 H3).
Defined.

(** [Scan_source_type_irrelevant] at [true] as a byte slice and as a
    string. *)
Lemma Scan_source_type_irrelevant_witness :
  content (bytes_ (list_byte_of_string "true"))
  = Some (list_byte_of_string "true") /\
  content (string_ "true") = Some (list_byte_of_string "true") /\
  Value.Scan json.Unmarshal_bool {| Value.V := false |}
    (bytes_ (list_byte_of_string "true"))
  = Value.Scan json.Unmarshal_bool {| Value.V := false |} (string_ "true") /\
  Nullable.Scan false json.Unmarshal_bool (Nullable.Null false)
    (bytes_ (list_byte_of_string "true"))
  = Nullable.Scan false json.Unmarshal_bool (Nullable.Null false)
      (string_ "true").
Proof.
  split; [reflexivity | split; [reflexivity|]].
  exact (Scan_source_type_irrelevant false json.Unmarshal_bool
           {| Value.V := false |} (Nullable.Null false)
           (bytes_ (list_byte_of_string "true")) (string_ "true")
           (list_byte_of_string "true") eq_refl eq_refl).
Defined.

(** A space and a tab, [null], a carriage return and a newline. *)
Definition indented_null_line : list byte :=
  [x20; x09] ++ null_literal ++ [x0d; x0a].

(** [Scan_json_padded_null] at [indented_null_line]. *)
Lemma Scan_json_padded_null_witness :
  content (RawMessage indented_null_line) = Some indented_null_line /\
  json_padded_null indented_null_line /\
  Value.Scan json.Unmarshal_bool {| Value.V := true |}
    (RawMessage indented_null_line)
  = (({| Value.V := true |}, Some ErrNullNotAllowed), []) /\
  Nullable.Scan false json.Unmarshal_bool
    {| Nullable.V := true; Nullable.Valid := true |}
    (RawMessage indented_null_line)
  = ((Nullable.Null false, None), []).
Proof.
  assert (H1 : content (RawMessage indented_null_line) = Some indented_null_line)
    by reflexivity.
  assert (H2 : json_padded_null indented_null_line).
  { exists [x20; x09], [x0d; x0a].
    split; [|split; [|reflexivity]];
      repeat (apply Forall_cons; [unfold json_space; auto 6|]);
      apply Forall_nil. }
  split; [exact H1 | split; [exact H2|]].
  exact (Scan_json_padded_null false json.Unmarshal_bool
           {| Value.V := true |}
           {| Nullable.V := true; Nullable.Valid := true |}
           (RawMessage indented_null_line) indented_null_line H1 H2).
Defined.

(** [Nullable_Scan_Get] at the scan of [true] into the null box. *)
Lemma Nullable_Scan_Get_witness :
  Nullable.Scan false json.Unmarshal_bool (Nullable.Null false) (string_ "true")
  = ((Nullable.NullableFrom true, None),
     [Unmarshal_call (list_byte_of_string "true") false]) /\
  (snd (Nullable.Get (Nullable.NullableFrom true)) = true
   <-> [Unmarshal_call (list_byte_of_string "true") false] <> []) /\
  (snd (Nullable.Get (Nullable.NullableFrom true)) = false ->
   fst (Nullable.Get (Nullable.NullableFrom true)) = false).
Proof.
  assert (H : Nullable.Scan false json.Unmarshal_bool (Nullable.Null false)
                (string_ "true")
              = ((Nullable.NullableFrom true, None),
                 [Unmarshal_call (list_byte_of_string "true") false]))
    by reflexivity.
  split; [exact H|].
  exact (Nullable_Scan_Get false json.Unmarshal_bool _ _ _ _ H).
Defined.

(** [Nullable_Value_valid] at a payload that [json.Marshal] rejects: each
    method wraps the error under its own name. *)
Lemma Nullable_Value_valid_witness :
  Nullable.Valid {| Nullable.V := {| json.Ch := Some 0%nat |};
                    Nullable.Valid := true |} = true /\
  Nullable.Value json.Marshal_unmarshalableType
    {| Nullable.V := {| json.Ch := Some 0%nat |}; Nullable.Valid := true |}
  = ((nil_, Some (wrapped "jsonsql.Nullable.Value" json.UnsupportedTypeError)),
     [Marshal_call {| json.Ch := Some 0%nat |}]) /\
  Value.Value json.Marshal_unmarshalableType
    {| Value.V := {| json.Ch := Some 0%nat |} |}
  = ((nil_, Some (wrapped "jsonsql.Value.Value" json.UnsupportedTypeError)),
     [Marshal_call {| json.Ch := Some 0%nat |}]).
Proof.
  split; [reflexivity|].
  exact (Nullable_Value_valid json.Marshal_unmarshalableType
           {| Nullable.V := {| json.Ch := Some 0%nat |}; Nullable.Valid := true |}
           eq_refl).
Defined.

(** [Nullable_Scan_agrees_with_Value_Scan] at [true], into boxes that held
    [false]. *)
Lemma Nullable_Scan_agrees_with_Value_Scan_witness :
  content (bytes_ (list_byte_of_string "true"))
  = Some (list_byte_of_string "true") /\
  list_byte_of_string "true" <> [] /\
  Value.Scan json.Unmarshal_bool {| Value.V := false |}
    (bytes_ (list_byte_of_string "true"))
  = (({| Value.V := true |}, None),
     [Unmarshal_call (list_byte_of_string "true") false]) /\
  Nullable.Scan false json.Unmarshal_bool
    {| Nullable.V := false; Nullable.Valid := false |}
    (bytes_ (list_byte_of_string "true"))
  = (({| Nullable.V := true; Nullable.Valid := true |}, None),
     [Unmarshal_call (list_byte_of_string "true") false]).
Proof.
  assert (H1 : content (bytes_ (list_byte_of_string "true"))
               = Some (list_byte_of_string "true")) by reflexivity.
  assert (H0 : list_byte_of_string "true" <> []) by (vm_compute; discriminate).
  assert (H2 : Value.Scan json.Unmarshal_bool {| Value.V := false |}
                 (bytes_ (list_byte_of_string "true"))
               = (({| Value.V := true |}, None),
                  [Unmarshal_call (list_byte_of_string "true") false]))
    by reflexivity.
  split; [exact H1 | split; [exact H0 | split; [exact H2|]]].
  exact (Nullable_Scan_agrees_with_Value_Scan false json.Unmarshal_bool
           {| Nullable.V := false; Nullable.Valid := false |}
           (bytes_ (list_byte_of_string "true")) (list_byte_of_string "true")
           true _ H1 H0 H2).
Defined.

(** [Nullable_Scan_Valid_iff] at the scan of [spaced_true] into the null
    box. *)
Lemma Nullable_Scan_Valid_iff_witness :
  Nullable.Scan false json.Unmarshal_bool (Nullable.Null false)
    (bytes_ spaced_true)
  = ((Nullable.NullableFrom true, None), [Unmarshal_call spaced_true false]) /\
  (Nullable.Valid (Nullable.NullableFrom true) = false
   <-> bytes_ spaced_true = nil_ \/
       exists data, content (bytes_ spaced_true) = Some data /\
                    (data = [] \/ padded_null data)).
Proof.
  assert (H : Nullable.Scan false json.Unmarshal_bool (Nullable.Null false)
                (bytes_ spaced_true)
              = ((Nullable.NullableFrom true, None),
                 [Unmarshal_call spaced_true false]))
    by reflexivity.
  split; [exact H|].
  exact (Nullable_Scan_Valid_iff false json.Unmarshal_bool _ _ _ _ H).
Defined.
